(** * exec-utils: the execution-lifecycle coordinator of [src/index.ts]

    A shallow embedding of [setupAbortHandling], [handleInput], [createResult],
    [createErrorResult], [spawn] and [exec], with the Node.js platform pieces
    they drive (AbortController, the child-process host, Buffer) kept behind
    small explicit interfaces. *)

From stdpp Require Import gmap strings list pretty.
From Stdlib Require Import ZArith Lia.
From Stdlib.Strings Require Import Byte.

Local Open Scope Z_scope.
Local Open Scope string_scope.

(** ** JavaScript values *)

(** A Node.js [Buffer]: a finite sequence of bytes. *)
Abbreviation Buffer := (list Byte.byte).

#[global] Instance byte_eq_dec : EqDecision Byte.byte := Byte.byte_eq_dec.

(** A JavaScript number, an IEEE-754 double: an integer, a fraction
    [m / 2^k], an infinity or NaN.  The two zeros are one value here: both
    are falsy, both print as 0 and both compare alike, and the coordinator
    does nothing else with a number. *)
Inductive Number :=
  | Int (n : Z)
  | Fraction (m : Z) (k : positive)
  | Infinity (negative : bool)
  | NaN.

Coercion Int : Z >-> Number.

#[global] Instance Number_eq_dec : EqDecision Number.
Proof. solve_decision. Defined.

(** The values that flow through the options object, through [throw] and
    through abort reasons.  [VErr m] is any instance of [Error] with
    [message = m]; every other constructor is a value for which
    [v instanceof Error] is false, so [match v with VErr m => .. | _ => ..]
    renders [v instanceof Error ? .. v.message .. : ..]. *)
Inductive Value :=
  | VUndefined
  | VBool (b : bool)
  | VNum (x : Number)
  | VStr (s : string)
  | VBuf (b : Buffer)
  | VErr (message : string)
  | VSignal (id : nat)
  | VStream (id : nat)
  | VObj (id : nat).

#[global] Instance Value_eq_dec : EqDecision Value.
Proof. solve_decision. Defined.

(** JavaScript truthiness, as used by [if (options.timeout)] and [a || b]. *)
Definition truthy (v : Value) : bool :=
  match v with
  | VUndefined => false
  | VBool b => b
  | VNum (Int n) => negb (Z.eqb n 0)
  | VNum (Fraction m _) => negb (Z.eqb m 0)
  | VNum (Infinity _) => true
  | VNum NaN => false
  | VStr s => negb (String.eqb s EmptyString)
  | _ => true
  end.

(** [count > x] for an integer [count], as in [dataLength > maxBuffer]: a
    comparison with NaN is false. *)
Definition exceeds (count : Z) (x : Number) : bool :=
  match x with
  | Int n => count >? n
  | Fraction m k => count >? m / 2 ^ Z.pos k
  | Infinity negative => negative
  | NaN => false
  end.

Definition MAX_SAFE_INTEGER : Z := 2 ^ 53 - 1.

(** The text functions of the platform: [Buffer.from], [buf.toString], the
    UTF-16 length of a string, and the shortest round-trip form that
    [Number::toString] gives a number which is not a safe integer (1.5,
    1e+21, 5e-7).  They are not code of this package. *)
Class Codec := {
  Buffer_from : string -> Buffer;
  Buffer_toString : string -> Buffer -> string;
  String_length : string -> Z;
  Number_shortest : Number -> string;
}.

(** The digits after the point of [r / 2^k], for [0 <= r < 2^k]: those of
    [r * 5^k], written with [k] digits. *)
Definition fraction_digits (r : Z) (k : positive) : string :=
  let digits := pretty (r * 5 ^ Z.pos k) in
  String.concat EmptyString
    (replicate (Pos.to_nat k - String.length digits) "0") +:+ digits.

(** The codec of the worked calls: 7-bit text, where one character is one
    byte in every supported encoding, and numbers whose shortest round-trip
    form is their exact decimal expansion (1.5 and 0.25; neither 0.1 nor
    1e+21). *)
Definition ascii_codec : Codec := {|
  Buffer_from := String.list_byte_of_string;
  Buffer_toString := fun _ b => String.string_of_list_byte b;
  String_length := fun s => Z.of_nat (String.length s);
  Number_shortest := fun x =>
    match x with
    | Int n => pretty n
    | Fraction m k =>
        (if Z.ltb m 0 then "-" else EmptyString) +:+
        pretty (Z.abs m / 2 ^ Z.pos k) +:+ "." +:+
        fraction_digits (Z.abs m mod 2 ^ Z.pos k) k
    | Infinity false => "Infinity"
    | Infinity true => "-Infinity"
    | NaN => "NaN"
    end;
|}.

Section WithCodec.
Context {codec : Codec}.

(** [String(x)] for a number, ECMAScript's [Number::toString]: the decimal
    digits of a safe integer, the names of the infinities and of NaN, and
    the platform's shortest round-trip form for every other number. *)
Definition Number_toString (x : Number) : string :=
  match x with
  | Int n => if Z.leb (Z.abs n) MAX_SAFE_INTEGER then pretty n else Number_shortest x
  | Fraction _ _ => Number_shortest x
  | Infinity false => "Infinity"
  | Infinity true => "-Infinity"
  | NaN => "NaN"
  end.

(** [String(v)] and template-literal interpolation. *)
Definition js_String (v : Value) : string :=
  match v with
  | VUndefined => "undefined"
  | VBool true => "true"
  | VBool false => "false"
  | VNum x => Number_toString x
  | VStr s => s
  | VBuf b => Buffer_toString "utf8" b
  | VErr m => "Error: " +:+ m
  | VSignal _ => "[object AbortSignal]"
  | VStream _ => "[object Object]"
  | VObj _ => "[object Object]"
  end.

(** [Buffer.concat(list, totalLength)]: the chunks in order, cut to
    [totalLength] bytes and filled with zero bytes when they are shorter. *)
Definition Buffer_concat (chunks : list Buffer) (totalLength : Z) : Buffer :=
  take (Z.to_nat totalLength)
       (concat chunks ++ replicate (Z.to_nat totalLength) Byte.x00).

(** ** Results *)

Record ChildProcess := {
  pid : nat;
  has_stdin : bool;
  has_stdout : bool;
  has_stderr : bool;
}.

(** [class ExecUtilsError extends Error].  The exit code delivered by the
    host's ['close'] event is a number, or [null] when the child was
    terminated by a signal; [None] stands for [null]. *)
Record ExecUtilsError := {
  name : string;
  message : string;
  code : option Z;
}.

Definition new_ExecUtilsError (message : string) (code : option Z) : ExecUtilsError :=
  {| name := "ExecUtilsError"; message := message; code := code |}.

Record SpawnResult := {
  data : option string;
  dataAsBuffer : option Buffer;
  error : option ExecUtilsError;
  exitCode : option Z;
  process : ChildProcess;
}.

(** [createResult], lines 61-83. *)
Definition createResult (code : option Z) (dataChunks : list Buffer) (dataLength : Z)
    (errorChunks : list Buffer) (errorLength : Z) (encoding : string)
    (process : ChildProcess) : SpawnResult :=
  match code with
  | Some 0 =>
      let buffer := Buffer_concat dataChunks dataLength in
      {| data := Some (Buffer_toString encoding buffer);
         dataAsBuffer := Some buffer;
         error := None;
         exitCode := code;
         process := process |}
  | _ =>
      let errorBuffer := Buffer_concat errorChunks errorLength in
      let errorStr := Buffer_toString "utf8" errorBuffer in
      let execError := new_ExecUtilsError errorStr code in
      {| data := None;
         dataAsBuffer := None;
         error := Some execError;
         exitCode := code;
         process := process |}
  end.

(** [createErrorResult], lines 88-101.  [signal] is the effective signal:
    [None] while not aborted, [Some reason] once aborted. *)
Definition createErrorResult (err : Value) (signal : option Value)
    (process : ChildProcess) : SpawnResult :=
  let execError :=
    match err with
    | VErr m => new_ExecUtilsError m (Some (-1))
    | _ => new_ExecUtilsError "Unknown error occurred" (Some (-1))
    end in
  let execError :=
    match signal with
    | Some reason =>
        match reason with
        | VErr m => new_ExecUtilsError m (Some (-1))
        | _ => new_ExecUtilsError "Operation aborted" (Some (-1))
        end
    | None => execError
    end in
  {| data := None;
     dataAsBuffer := None;
     error := Some execError;
     exitCode := Some (-1);
     process := process |}.

(** ** The world the coordinator runs in *)

(** Calls made on the child's input stream ([write], [end]) and on a
    caller-supplied source stream ([pipe], [once]), in the order the code
    makes them. *)
Inductive Call :=
  | CallWrite (b : Buffer)
  | CallEnd
  | CallPipe (src : nat)
  | CallOnceEnd (src : nat)
  | CallOnceError (src : nat).

(** Mutable state reachable from one call of [spawn] or [exec].

    - [heap]: the option objects, by reference; the caller's object lives here.
    - [oracle]: what the caller's source stream answers to the successive
      calls made on it: [None] returns normally, [Some v] throws [v]; past
      its end every call returns normally.
    - [calls]: the stream calls made so far.
    - [callerSignal]: the caller's [AbortSignal] ([options.signal]), holding
      its reason once it has fired.
    - [controllerSignal]: [abortController.signal].
    - [anySignal]: the result of [AbortSignal.any], once created.
    - [timerArmed]: the timeout timer is pending.
    - [endListener], [errorListener]: [input.once('end' | 'error')] registered.
    - [abortListener]: the ['abort'] listener of the effective signal is
      registered and has not run.
    - [kills]: number of [kill('SIGTERM')] requests made.
    - [launches]: what the process host was handed, launch by launch. *)
Record World := {
  heap : gmap nat (gmap string Value);
  oracle : list (option Value);
  calls : list Call;
  callerSignal : option Value;
  controllerSignal : option Value;
  anySignal : option (option Value);
  timerArmed : bool;
  endListener : bool;
  errorListener : bool;
  abortListener : bool;
  kills : nat;
  launches : list (string * list string * gmap string Value);
}.

Definition set_heap (h : gmap nat (gmap string Value)) (w : World) : World :=
  {| heap := h; oracle := oracle w; calls := calls w; callerSignal := callerSignal w;
     controllerSignal := controllerSignal w; anySignal := anySignal w;
     timerArmed := timerArmed w; endListener := endListener w;
     errorListener := errorListener w; abortListener := abortListener w;
     kills := kills w; launches := launches w |}.

Definition set_stream (o : list (option Value)) (c : list Call) (w : World) : World :=
  {| heap := heap w; oracle := o; calls := c; callerSignal := callerSignal w;
     controllerSignal := controllerSignal w; anySignal := anySignal w;
     timerArmed := timerArmed w; endListener := endListener w;
     errorListener := errorListener w; abortListener := abortListener w;
     kills := kills w; launches := launches w |}.

Definition set_signals (caller ctl : option Value) (any : option (option Value))
    (w : World) : World :=
  {| heap := heap w; oracle := oracle w; calls := calls w; callerSignal := caller;
     controllerSignal := ctl; anySignal := any;
     timerArmed := timerArmed w; endListener := endListener w;
     errorListener := errorListener w; abortListener := abortListener w;
     kills := kills w; launches := launches w |}.

Definition set_timerArmed (b : bool) (w : World) : World :=
  {| heap := heap w; oracle := oracle w; calls := calls w; callerSignal := callerSignal w;
     controllerSignal := controllerSignal w; anySignal := anySignal w;
     timerArmed := b; endListener := endListener w;
     errorListener := errorListener w; abortListener := abortListener w;
     kills := kills w; launches := launches w |}.

Definition set_listeners (e r a : bool) (k : nat) (w : World) : World :=
  {| heap := heap w; oracle := oracle w; calls := calls w; callerSignal := callerSignal w;
     controllerSignal := controllerSignal w; anySignal := anySignal w;
     timerArmed := timerArmed w; endListener := e;
     errorListener := r; abortListener := a;
     kills := k; launches := launches w |}.

Definition add_launch (x : string * list string * gmap string Value) (w : World) : World :=
  {| heap := heap w; oracle := oracle w; calls := calls w; callerSignal := callerSignal w;
     controllerSignal := controllerSignal w; anySignal := anySignal w;
     timerArmed := timerArmed w; endListener := endListener w;
     errorListener := errorListener w; abortListener := abortListener w;
     kills := kills w; launches := launches w ++ [x] |}.

(** *** The cancellation latch (platform [AbortController] / [AbortSignal.any])

    An [AbortSignal] is [None] until aborted and [Some reason] afterwards.
    [abort(reason)] on an aborted signal does nothing, and a signal made by
    [AbortSignal.any] follows the first of its sources to abort. *)
Definition latch (reason : Value) (s : option Value) : option Value :=
  match s with
  | Some r => Some r
  | None => Some reason
  end.

(** [abort()] and [abort(undefined)] record the platform's default reason, a
    [DOMException] named AbortError, which is an instance of [Error]. *)
Definition abort_reason (reason : Value) : Value :=
  match reason with
  | VUndefined => VErr "This operation was aborted"
  | _ => reason
  end.

(** The effective signal: [signal] of [setupAbortHandling], line 23. *)
Definition signal (w : World) : option Value :=
  match anySignal w with
  | Some s => s
  | None => controllerSignal w
  end.

(** The ['abort'] listener of lines 159-166 and 260-267: [cleanup()] then
    [kill('SIGTERM')]; it runs once, when the effective signal turns aborted
    after the listener was registered. *)
Definition dispatch_abort (before : option Value) (w : World) : World :=
  match before, signal w with
  | None, Some _ =>
      if abortListener w
      then set_timerArmed false
             (set_listeners (endListener w) (errorListener w) false (S (kills w)) w)
      else w
  | _, _ => w
  end.

(** [abortController.abort(reason)]. *)
Definition controller_abort (reason : Value) (w : World) : World :=
  match controllerSignal w with
  | Some _ => w
  | None =>
      dispatch_abort (signal w)
        (set_signals (callerSignal w) (Some (abort_reason reason))
           (latch (abort_reason reason) <$> anySignal w) w)
  end.

(** The caller aborts its own signal: [controller.abort(reason)] outside. *)
Definition caller_abort (reason : Value) (w : World) : World :=
  match callerSignal w with
  | Some _ => w
  | None =>
      dispatch_abort (signal w)
        (set_signals (Some (abort_reason reason)) (controllerSignal w)
           (latch (abort_reason reason) <$> anySignal w) w)
  end.

(** ** Sequential code: state and exceptions

    [M A] is a computation on the [World] that returns an [A] or throws a
    JavaScript value. *)
Definition M (A : Type) : Type := World -> (Value + A) * World.

Definition ret {A} (a : A) : M A := fun w => (inr a, w).

Definition throw {A} (v : Value) : M A := fun w => (inl v, w).

Definition bind {A B} (m : M A) (k : A -> M B) : M B :=
  fun w =>
    match m w with
    | (inl v, w') => (inl v, w')
    | (inr a, w') => k a w'
    end.

Definition try_catch {A} (body : M A) (handler : Value -> M A) : M A :=
  fun w =>
    match body w with
    | (inl v, w') => handler v w'
    | (inr a, w') => (inr a, w')
    end.

Definition modify (f : World -> World) : M unit := fun w => (inr tt, f w).

Definition gets {A} (f : World -> A) : M A := fun w => (inr (f w), w).

Notation "x <- c1 ;; c2" := (bind c1 (fun x => c2))
  (at level 100, c1 at next level, right associativity).
Notation "c1 ;; c2" := (bind c1 (fun _ => c2))
  (at level 100, right associativity).

(** The calls that go to the caller's source stream. *)
Definition on_source (c : Call) : bool :=
  match c with
  | CallPipe _ | CallOnceEnd _ | CallOnceError _ => true
  | CallWrite _ | CallEnd => false
  end.

(** One call on a stream, logged.  The source stream is the caller's object
    and its methods are the caller's code: the oracle answers for them.
    The child's input stream is the platform's [Writable]: [write(Buffer)]
    and [end()] report a failure later, through an ['error'] event, and
    return normally. *)
Definition host_call (c : Call) : M unit :=
  fun w =>
    if on_source c
    then
      let w' := set_stream (tail (oracle w)) (calls w ++ [c]) w in
      match oracle w with
      | Some v :: _ => (inl v, w')
      | _ => (inr tt, w')
      end
    else (inr tt, set_stream (oracle w) (calls w ++ [c]) w).

(** *** Option objects *)

(** [o.k], [undefined] when the property is absent. *)
Definition get (o : gmap string Value) (k : string) : Value :=
  default VUndefined (o !! k).

Definition deref (l : nat) (w : World) : gmap string Value :=
  default ∅ (heap w !! l).

(** A new object, at a reference no live object has. *)
Definition alloc (o : gmap string Value) : M nat :=
  fun w =>
    let l := fresh (dom (heap w)) in
    (inr l, set_heap (<[l := o]> (heap w)) w).

(** [{ ...options }]: a shallow copy in a new object. *)
Definition spread (l : nat) : M nat :=
  o <- gets (deref l) ;; alloc o.

(** [delete obj.k]. *)
Definition delete_prop (l : nat) (k : string) : M unit :=
  modify (fun w => set_heap (alter (delete k) l (heap w)) w).

(** [obj.k = v] on a freshly made object literal. *)
Definition set_prop (l : nat) (k : string) (v : Value) : M unit :=
  modify (fun w => set_heap (alter (insert k v) l (heap w)) w).

(** *** The process host

    [child_process.spawn] and the promisified [child_process.exec].  Either
    may throw synchronously, and either may change the options object it is
    handed; it is handed nothing else. *)
Record Host := {
  host_spawn : string -> list string -> gmap string Value ->
               (Value + ChildProcess) * gmap string Value;
  host_exec : string -> gmap string Value ->
              (Value + ChildProcess) * gmap string Value;
}.

Definition childProcess_spawn (H : Host) (command : string) (args : list string)
    (l : nat) : M ChildProcess :=
  fun w =>
    let '(r, o') := host_spawn H command args (deref l w) in
    (r, set_heap (<[l := o']> (heap w)) (add_launch (command, args, deref l w) w)).

Definition execAsync (H : Host) (command : string) (l : nat) : M ChildProcess :=
  fun w =>
    let '(r, o') := host_exec H command (deref l w) in
    (r, set_heap (<[l := o']> (heap w)) (add_launch (command, [], deref l w) w)).

(** ** [setupAbortHandling], lines 13-26

    Makes the controller, arms the timer when [options.timeout] is truthy and
    derives the effective signal.  Returns whether a [timeoutId] exists. *)
Definition setupAbortHandling (options : nat) : M bool :=
  timeout <- gets (fun w => get (deref options w) "timeout") ;;
  sig <- gets (fun w => get (deref options w) "signal") ;;
  modify (fun w =>
    set_timerArmed (truthy timeout)
      (set_signals (callerSignal w) None
         (if truthy sig then Some (callerSignal w) else None) w)) ;;
  ret (truthy timeout).

(** The reason made by the timer callback of lines 18-20; [options.timeout]
    is read when the timer fires. *)
Definition timeout_reason (timeout : Value) : Value :=
  VErr ("Command timed out after " +:+ js_String timeout +:+ "ms").

(** ** [handleInput], lines 31-56 *)

Definition stdin_failure (err : Value) : Value :=
  VErr ("Failed to write to stdin: " +:+
        match err with VErr m => m | _ => js_String err end).

Definition handleInput (child : ChildProcess) (input : Value) : M unit :=
  if bool_decide (input = VUndefined) || negb (has_stdin child) then ret tt
  else
    try_catch
      (match input with
       | VStr s =>
           host_call (CallWrite (Buffer_from s)) ;;
           host_call CallEnd
       | VBuf b =>
           host_call (CallWrite b) ;;
           host_call CallEnd
       | VStream src =>
           host_call (CallPipe src) ;;
           host_call (CallOnceEnd src) ;;
           modify (fun w => set_listeners true (errorListener w) (abortListener w) (kills w) w) ;;
           host_call (CallOnceError src) ;;
           modify (fun w => set_listeners (endListener w) true (abortListener w) (kills w) w)
       | _ => ret tt
       end)
      (fun err =>
         host_call CallEnd ;;
         modify (controller_abort (stdin_failure err))).

(** ** [spawn], lines 134-199 *)

(** [a || b]. *)
Definition js_or (a b : Value) : Value := if truthy a then a else b.

(** Projections of values whose TypeScript type is [number] or
    [BufferEncoding]; other values do not reach them in a well-typed call. *)
Definition as_number (v : Value) : Number :=
  match v with VNum x => x | _ => Int 0 end.

Definition as_string (v : Value) : string :=
  match v with VStr s => s | _ => js_String v end.

Definition default_maxBuffer : Z := 80 * 1024 * 1024.

(** What the asynchronous part of a call keeps from its synchronous part. *)
Record Running := {
  options : nat;
  encoding : string;
  maxBuffer : Number;
  timeoutId : bool;
  child : ChildProcess;
}.

(** The synchronous part of [spawn], lines 135-166, up to the [await]. *)
Definition spawn_launch (H : Host) (command : string) (args : list string)
    (options : nat) : M Running :=
  enc <- gets (fun w => js_or (get (deref options w) "encoding") (VStr "utf8")) ;;
  maxB <- gets (fun w => js_or (get (deref options w) "maxBuffer") (VNum default_maxBuffer)) ;;
  timeoutId <- setupAbortHandling options ;;
  spawnOptions <- spread options ;;
  delete_prop spawnOptions "timeout" ;;
  delete_prop spawnOptions "maxBuffer" ;;
  delete_prop spawnOptions "encoding" ;;
  delete_prop spawnOptions "input" ;;
  child <- childProcess_spawn H command args spawnOptions ;;
  input <- gets (fun w => get (deref options w) "input") ;;
  handleInput child input ;;
  modify (fun w => set_listeners (endListener w) (errorListener w) true (kills w) w) ;;
  ret {| options := options; encoding := as_string enc; maxBuffer := as_number maxB;
         timeoutId := timeoutId; child := child |}.

(** A chunk of the error stream: a [Buffer], or some other value that the
    handler converts with [String]. *)
Inductive Chunk :=
  | ChunkBuffer (b : Buffer)
  | ChunkOther (v : Value).

(** What can happen while a call is awaiting.  On the output stream the host
    delivers [Buffer]s (no encoding is ever set on the child's streams). *)
Inductive Event :=
  | StdoutData (chunk : Buffer)
  | StderrData (chunk : Chunk)
  | InputEnd
  | InputError (err : Value)
  | TimerFired
  | CallerAbort (reason : Value)
  | Close (code : option Z)
  | ChildError (err : Value)
  | ExecResolved (stdout : Buffer)
  | ExecRejected (err : Value).

(** The output accumulator, lines 150-153. *)
Record Accum := {
  dataChunks : list Buffer;
  dataLength : Z;
  errorChunks : list Buffer;
  errorLength : Z;
}.

Definition no_output : Accum :=
  {| dataChunks := []; dataLength := 0; errorChunks := []; errorLength := 0 |}.

Definition maxBuffer_reason (maxBuffer : Number) : Value :=
  VErr ("MaxBuffer size exceeded (" +:+ Number_toString maxBuffer +:+ " bytes)").

(** The ['data'] handler of the output stream, lines 168-175. *)
Definition on_stdout (r : Running) (chunk : Buffer) (st : Accum * World) : Accum * World :=
  let '(a, w) := st in
  let a' := {| dataChunks := dataChunks a ++ [chunk];
               dataLength := dataLength a + Z.of_nat (length chunk);
               errorChunks := errorChunks a;
               errorLength := errorLength a |} in
  if exceeds (dataLength a') (maxBuffer r)
  then (a', controller_abort (maxBuffer_reason (maxBuffer r)) w)
  else (a', w).

(** The ['data'] handler of the error stream, lines 177-184. *)
Definition on_stderr (r : Running) (chunk : Chunk) (st : Accum * World) : Accum * World :=
  let '(a, w) := st in
  let a' := {| dataChunks := dataChunks a;
               dataLength := dataLength a;
               errorChunks := errorChunks a ++
                 [match chunk with
                  | ChunkBuffer b => b
                  | ChunkOther v => Buffer_from (js_String v)
                  end];
               errorLength := errorLength a +
                 match chunk with
                 | ChunkBuffer b => Z.of_nat (length b)
                 | ChunkOther v => String_length (js_String v)
                 end |} in
  if exceeds (dataLength a' + errorLength a') (maxBuffer r)
  then (a', controller_abort (maxBuffer_reason (maxBuffer r)) w)
  else (a', w).

(** [cleanup], lines 155-157. *)
Definition cleanup (r : Running) (w : World) : World :=
  if timeoutId r then set_timerArmed false w else w.

(** The triggers shared by both runners: the timer and the caller's signal. *)
Definition on_timer (r : Running) (w : World) : World :=
  if timerArmed w
  then controller_abort (timeout_reason (get (deref (options r) w) "timeout"))
         (set_timerArmed false w)
  else w.

Definition on_caller_abort (reason : Value) (w : World) : World :=
  match anySignal w with
  | Some _ => caller_abort reason w
  | None => w
  end.

(** One event that does not settle the awaited promise.  An event whose
    listener is not registered changes nothing. *)
Definition spawn_step (r : Running) (e : Event) (st : Accum * World) : Accum * World :=
  match e with
  | StdoutData chunk => if has_stdout (child r) then on_stdout r chunk st else st
  | StderrData chunk => if has_stderr (child r) then on_stderr r chunk st else st
  | InputEnd =>
      if endListener st.2
      then (st.1, (host_call CallEnd
                     (set_listeners false (errorListener st.2) (abortListener st.2)
                        (kills st.2) st.2)).2)
      else st
  | InputError err =>
      if errorListener st.2
      then (st.1, controller_abort
                    (VErr ("Input stream error: " +:+
                           js_String (match err with VErr m => VStr m | _ => VUndefined end)))
                    (set_listeners (endListener st.2) false (abortListener st.2)
                       (kills st.2) st.2))
      else st
  | TimerFired => (st.1, on_timer r st.2)
  | CallerAbort reason => (st.1, on_caller_abort reason st.2)
  | _ => st
  end.

Inductive Outcome :=
  | Pending
  | Resolved (result : SpawnResult)
  | Rejected (reason : Value).

(** The [try]/[catch] around the [await], lines 186-198: the first ['close']
    or ['error'] of the child settles the call. *)
Fixpoint spawn_await (r : Running) (events : list Event) (st : Accum * World)
    : Outcome * World :=
  match events with
  | [] => (Pending, st.2)
  | Close code :: _ =>
      match signal st.2 with
      | Some reason =>
          (Resolved (createErrorResult reason (signal st.2) (child r)), cleanup r st.2)
      | None =>
          (Resolved (createResult code (dataChunks st.1) (dataLength st.1)
                       (errorChunks st.1) (errorLength st.1) (encoding r) (child r)),
           cleanup r st.2)
      end
  | ChildError err :: _ =>
      (Resolved (createErrorResult err (signal st.2) (child r)), cleanup r st.2)
  | e :: events' => spawn_await r events' (spawn_step r e st)
  end.

(** [spawn]: an [async] function, so a value thrown by its synchronous part
    rejects the promise it returns. *)
Definition spawn (H : Host) (command : string) (args : list string) (options : nat)
    (events : list Event) (w : World) : Outcome * World :=
  match spawn_launch H command args options w with
  | (inl thrown, w') => (Rejected thrown, w')
  | (inr r, w') => spawn_await r events (no_output, w')
  end.

(** ** [exec], lines 234-288 *)

Inductive Awaiting :=
  | AwaitClose (r : Running)
  | AwaitExec (r : Running).

Definition exec_launch (H : Host) (command : string) (options : nat) : M Awaiting :=
  enc <- gets (fun w => js_or (get (deref options w) "encoding") (VStr "utf8")) ;;
  maxB <- gets (fun w => js_or (get (deref options w) "maxBuffer") (VNum default_maxBuffer)) ;;
  input <- gets (fun w => get (deref options w) "input") ;;
  if negb (bool_decide (input = VUndefined)) then
    o <- spread options ;;
    set_prop o "shell" (VBool true) ;;
    r <- spawn_launch H "sh" ["-c"; command] o ;;
    ret (AwaitClose r)
  else
    timeoutId <- setupAbortHandling options ;;
    execOptions <- spread options ;;
    set_prop execOptions "encoding" (VStr "buffer") ;;
    set_prop execOptions "maxBuffer" maxB ;;
    delete_prop execOptions "timeout" ;;
    delete_prop execOptions "signal" ;;
    childProc <- execAsync H command execOptions ;;
    modify (fun w => set_listeners (endListener w) (errorListener w) true (kills w) w) ;;
    ret (AwaitExec {| options := options; encoding := as_string enc;
                      maxBuffer := as_number maxB; timeoutId := timeoutId;
                      child := childProc |}).

Definition exec_step (r : Running) (e : Event) (w : World) : World :=
  match e with
  | TimerFired => on_timer r w
  | CallerAbort reason => on_caller_abort reason w
  | _ => w
  end.

(** The [try]/[catch] around [await execPromise], lines 269-287. *)
Fixpoint exec_await (r : Running) (events : list Event) (w : World) : Outcome * World :=
  match events with
  | [] => (Pending, w)
  | ExecResolved stdout :: _ =>
      match signal w with
      | Some reason =>
          (Resolved (createErrorResult reason (signal w) (child r)), cleanup r w)
      | None =>
          (Resolved {| data := Some (Buffer_toString (encoding r) stdout);
                       dataAsBuffer := Some stdout;
                       error := None;
                       exitCode := Some 0;
                       process := child r |},
           cleanup r w)
      end
  | ExecRejected err :: _ =>
      (Resolved (createErrorResult err (signal w) (child r)), cleanup r w)
  | e :: events' => exec_await r events' (exec_step r e w)
  end.

(** What either runner does once launched. *)
Definition await (a : Awaiting) (events : list Event) (w : World) : Outcome * World :=
  match a with
  | AwaitClose r => spawn_await r events (no_output, w)
  | AwaitExec r => exec_await r events w
  end.

Definition exec (H : Host) (command : string) (options : nat)
    (events : list Event) (w : World) : Outcome * World :=
  match exec_launch H command options w with
  | (inl thrown, w') => (Rejected thrown, w')
  | (inr a, w') => await a events w'
  end.

(** ** Runs *)

(** The world at the moment of a call: the caller's heap, the answers the
    streams will give, and the state of the caller's signal. *)
Definition new_world (h : gmap nat (gmap string Value)) (o : list (option Value))
    (callerSignal : option Value) : World :=
  {| heap := h; oracle := o; calls := []; callerSignal := callerSignal;
     controllerSignal := None; anySignal := None; timerArmed := false;
     endListener := false; errorListener := false; abortListener := false;
     kills := 0; launches := [] |}.

(** Events that settle the promise awaited by [spawn], respectively [exec]. *)
Definition settles_spawn (e : Event) : bool :=
  match e with Close _ | ChildError _ => true | _ => false end.

Definition settles_exec (e : Event) : bool :=
  match e with ExecResolved _ | ExecRejected _ => true | _ => false end.


Definition spawn_steps (r : Running) (events : list Event) (st : Accum * World)
    : Accum * World :=
  foldl (fun s e => spawn_step r e s) st events.

Definition exec_steps (r : Running) (events : list Event) (w : World) : World :=
  foldl (fun s e => exec_step r e s) w events.

(** The bytes delivered on the output stream, in order; a child without an
    output stream delivers none. *)
Definition stdout_bytes (c : ChildProcess) (events : list Event) : Buffer :=
  if has_stdout c
  then concat (omap (fun e => match e with StdoutData b => Some b | _ => None end) events)
  else [].

(** The bytes delivered on the error stream, in order, when they arrive as
    [Buffer]s. *)
Definition stderr_bytes (c : ChildProcess) (events : list Event) : Buffer :=
  if has_stderr c
  then concat (omap (fun e => match e with
                              | StderrData (ChunkBuffer b) => Some b
                              | _ => None
                              end) events)
  else [].

Definition running (a : Awaiting) : Running :=
  match a with AwaitClose r => r | AwaitExec r => r end.

Definition settles (a : Awaiting) (e : Event) : bool :=
  match a with
  | AwaitClose _ => settles_spawn e
  | AwaitExec _ => settles_exec e
  end.

(** The world after the events [pre], none of which settles the call. *)
Definition after (a : Awaiting) (pre : list Event) (w : World) : World :=
  match a with
  | AwaitClose r => (spawn_steps r pre (no_output, w)).2
  | AwaitExec r => exec_steps r pre w
  end.

(** The value caught by the [catch] block when the settling event [e] ends
    the call abnormally: the error of the child or of the host's promise, or
    the reason of a signal found aborted after a clean settlement. *)
Definition caught (signal : option Value) (e : Event) : option Value :=
  match e with
  | ChildError err => Some err
  | ExecRejected err => Some err
  | Close _ => signal
  | ExecResolved _ => signal
  | _ => None
  end.

Definition buffer_chunks (events : list Event) : Prop :=
  Forall (fun e => match e with StderrData (ChunkOther _) => False | _ => True end) events.

(** The message the result builder uses on the abnormal path, as the
    specification words it: the cancellation reason first, then the thrown
    error, each with its fallback. *)
Definition abnormal_message (thrown : Value) (signal : option Value) : string :=
  match signal with
  | Some (VErr m) => m
  | Some _ => "Operation aborted"
  | None =>
      match thrown with
      | VErr m => m
      | _ => "Unknown error occurred"
      end
  end.

(** The options object with the four properties deleted at lines 141-144. *)
Definition host_options (o : gmap string Value) : gmap string Value :=
  delete "input" (delete "encoding" (delete "maxBuffer" (delete "timeout" o))).

(** Weakest precondition of a computation: [Q] holds of its outcome. *)
Definition wp {A} (m : M A) (Q : Value + A -> World -> Prop) (w : World) : Prop :=
  Q (m w).1 (m w).2.

(** While the effective signal has not fired, neither has the controller, and
    the timer is pending exactly when one was requested. *)
Definition armed (timed : bool) (w : World) : Prop :=
  signal w = None -> controllerSignal w = None /\ timerArmed w = timed.

(** The stream calls that deliver an input payload, lines 37-50. *)
Definition delivery (input : Value) : list Call :=
  match input with
  | VStr s => [CallWrite (Buffer_from s); CallEnd]
  | VBuf b => [CallWrite b; CallEnd]
  | VStream src => [CallPipe src; CallOnceEnd src; CallOnceError src]
  | _ => []
  end.

(** A result is exactly one of the two variants of [SpawnResult]. *)
Definition one_variant (res : SpawnResult) : Prop :=
  (is_Some (data res) /\ is_Some (dataAsBuffer res) /\ error res = None) \/
  (data res = None /\ dataAsBuffer res = None /\ is_Some (error res)).

(** What the input feeder leaves alone: the option objects and the launch log. *)
Definition same_store (w w' : World) : Prop :=
  heap w' = heap w /\ launches w' = launches w.

(** The accumulator after a run holds the delivered chunks, in order, and
    their exact byte counts. *)
Definition holds (c : ChildProcess) (events : list Event) (a : Accum) : Prop :=
  concat (dataChunks a) = stdout_bytes c events /\
  dataLength a = Z.of_nat (length (stdout_bytes c events)) /\
  concat (errorChunks a) = stderr_bytes c events /\
  errorLength a = Z.of_nat (length (stderr_bytes c events)).

(** The object [exec] hands to the buffering host, lines 247-249. *)
Definition exec_options (o : gmap string Value) : gmap string Value :=
  delete "signal"
    (delete "timeout"
       (<["maxBuffer" := js_or (get o "maxBuffer") (VNum default_maxBuffer)]>
          (<["encoding" := VStr "buffer"]> o))).

(** A call without timer events. *)
Definition without_timer (events : list Event) : list Event :=
  List.filter (fun e => match e with TimerFired => false | _ => true end) events.

(** The ['end'] and ['error'] events of a source stream. *)
Definition is_input_end (e : Event) : bool :=
  match e with InputEnd => true | _ => false end.

Definition is_input_error (e : Event) : bool :=
  match e with InputError _ => true | _ => false end.

End WithCodec.

(** ** Concrete hosts and calls *)

Definition a_child : ChildProcess :=
  {| pid := 1; has_stdin := true; has_stdout := true; has_stderr := true |}.

(** A host that answers like Node's: [child_process.spawn] throws
    synchronously on an empty command and [child_process.exec] on a negative
    [maxBuffer] or NaN; any other launch gives a child with its three pipes.  It
    leaves the options object as it was handed. *)
Definition node_host : Host := {|
  host_spawn := fun command _ o =>
    if String.eqb command EmptyString
    then (inl (VErr "The argument 'file' cannot be empty. Received ''"), o)
    else (inr a_child, o);
  host_exec := fun _ o =>
    match o !! "maxBuffer" with
    | Some (VNum x) =>
        if exceeds 0 x || bool_decide (x = NaN)
        then (inl (VErr "The value of options.maxBuffer is out of range."), o)
        else (inr a_child, o)
    | _ => (inr a_child, o)
    end;
|}.

Definition bytes (s : string) : Buffer := String.list_byte_of_string s.

(** A call whose options object is [o], at reference 0, with streams that
    answer [answers] and a caller's signal that has not fired. *)
Definition call_with (o : gmap string Value) (answers : list (option Value)) : World :=
  new_world {[ 0%nat := o ]} answers None.

(** * Properties *)

Section Properties.
Context {codec : Codec}.

Local Open Scope list_scope.

Notation "x <- c1 ;; c2" := (bind c1 (fun x => c2))
  (at level 100, c1 at next level, right associativity).
Notation "c1 ;; c2" := (bind c1 (fun _ => c2))
  (at level 100, right associativity).

(** *** The latch *)

Lemma signal_set_timerArmed b w : signal (set_timerArmed b w) = signal w.
Proof. reflexivity. Qed.

Lemma signal_set_listeners e x a k w : signal (set_listeners e x a k w) = signal w.
Proof. reflexivity. Qed.

Lemma signal_set_stream o c w : signal (set_stream o c w) = signal w.
Proof. reflexivity. Qed.

Lemma signal_dispatch_abort before w : signal (dispatch_abort before w) = signal w.
Proof.
  unfold dispatch_abort.
  destruct before; [done|].
  destruct (signal w) eqn:Hs; [|done].
  destruct (abortListener w); [|done].
  by rewrite signal_set_timerArmed, signal_set_listeners.
Qed.

Lemma signal_controller_abort reason w :
  signal (controller_abort reason w) =
    match controllerSignal w with
    | Some _ => signal w
    | None => latch (abort_reason reason) (signal w)
    end.
Proof.
  unfold controller_abort.
  destruct (controllerSignal w) eqn:Hc; [done|].
  rewrite signal_dispatch_abort. unfold signal; simpl.
  destruct (anySignal w) as [s|]; simpl; [done|].
  by rewrite Hc.
Qed.

Lemma signal_caller_abort reason w :
  signal (caller_abort reason w) =
    match callerSignal w, anySignal w with
    | None, Some s => latch (abort_reason reason) s
    | _, _ => signal w
    end.
Proof.
  unfold caller_abort.
  destruct (callerSignal w) eqn:Hc.
  - by destruct (anySignal w).
  - rewrite signal_dispatch_abort. unfold signal; simpl.
    by destruct (anySignal w).
Qed.

Lemma latch_fired reason r s : s = Some r -> latch reason s = Some r.
Proof. by intros ->. Qed.

Lemma controller_abort_fired reason r w :
  signal w = Some r -> signal (controller_abort reason w) = Some r.
Proof.
  intros Hs. rewrite signal_controller_abort.
  destruct (controllerSignal w); [done|]. by apply latch_fired.
Qed.

Lemma caller_abort_fired reason r w :
  signal w = Some r -> signal (caller_abort reason w) = Some r.
Proof.
  intros Hs. rewrite signal_caller_abort.
  destruct (callerSignal w); [done|].
  destruct (anySignal w) eqn:Ha; [|done].
  apply latch_fired. unfold signal in Hs. by rewrite Ha in Hs.
Qed.

Lemma on_timer_fired r reason w :
  signal w = Some reason -> signal (on_timer r w) = Some reason.
Proof.
  intros Hs. unfold on_timer. destruct (timerArmed w); [|done].
  by apply controller_abort_fired.
Qed.

Lemma on_caller_abort_fired r' reason w :
  signal w = Some reason -> signal (on_caller_abort r' w) = Some reason.
Proof.
  intros Hs. unfold on_caller_abort. destruct (anySignal w) eqn:Ha; [|done].
  by apply caller_abort_fired.
Qed.

Lemma spawn_step_fired r e st reason :
  signal st.2 = Some reason -> signal (spawn_step r e st).2 = Some reason.
Proof.
  intros Hs. destruct st as [a w]; simpl in Hs.
  destruct e; simpl; try done.
  - destruct (has_stdout (child r)); [|done]. simpl.
    destruct (exceeds _ _); [|done]. by apply controller_abort_fired.
  - destruct (has_stderr (child r)); [|done]. simpl.
    destruct (exceeds _ _); [|done]. by apply controller_abort_fired.
  - destruct (endListener w); [|done]. simpl.
    done.
  - destruct (errorListener w); [|done]. simpl.
    by apply controller_abort_fired.
  - by apply on_timer_fired.
  - by apply on_caller_abort_fired.
Qed.

Lemma exec_step_fired r e w reason :
  signal w = Some reason -> signal (exec_step r e w) = Some reason.
Proof.
  intros Hs. destruct e; simpl; try done.
  - by apply on_timer_fired.
  - by apply on_caller_abort_fired.
Qed.

Lemma spawn_steps_fired r events st reason :
  signal st.2 = Some reason -> signal (spawn_steps r events st).2 = Some reason.
Proof.
  revert st. induction events as [|e events IH]; intros st Hs; [done|].
  simpl. apply IH. by apply spawn_step_fired.
Qed.

Lemma exec_steps_fired r events w reason :
  signal w = Some reason -> signal (exec_steps r events w) = Some reason.
Proof.
  revert w. induction events as [|e events IH]; intros w Hs; [done|].
  simpl. apply IH. by apply exec_step_fired.
Qed.

(** *** Symbolic execution of the sequential code *)

Lemma wp_bind {A B} (m : M A) (k : A -> M B) Q w :
  wp m (fun res w' => match res with
                      | inl v => Q (inl v) w'
                      | inr a => wp (k a) Q w'
                      end) w ->
  wp (bind m k) Q w.
Proof. unfold wp, bind. by destruct (m w) as [[v|a] w']. Qed.

Lemma wp_ret {A} (a : A) (Q : Value + A -> World -> Prop) w :
  Q (inr a) w -> wp (ret a) Q w.
Proof. done. Qed.

Lemma wp_gets {A} (f : World -> A) (Q : Value + A -> World -> Prop) w :
  Q (inr (f w)) w -> wp (gets f) Q w.
Proof. done. Qed.

Lemma wp_modify (f : World -> World) (Q : Value + unit -> World -> Prop) w :
  Q (inr tt) (f w) -> wp (modify f) Q w.
Proof. done. Qed.

Lemma wp_mono {A} (m : M A) (Q Q' : Value + A -> World -> Prop) w :
  wp m Q w -> (forall res w', Q res w' -> Q' res w') -> wp m Q' w.
Proof. unfold wp. auto. Qed.

(** What a stream call leaves alone: everything but the oracle and the log. *)
Lemma host_call_effect c w :
  exists res o' l', host_call c w = (res, set_stream o' l' w).
Proof.
  unfold host_call. destruct (on_source c); [|eauto].
  destruct (oracle w) as [|[v|] o]; eauto.
Qed.

Lemma wp_host_call c (Q : Value + unit -> World -> Prop) w :
  (forall res o' l', Q res (set_stream o' l' w)) -> wp (host_call c) Q w.
Proof.
  intros HQ. destruct (host_call_effect c w) as (res & o' & l' & Heq).
  unfold wp. rewrite Heq. apply HQ.
Qed.

Lemma armed_controller_abort timed reason w :
  armed timed w -> armed timed (controller_abort reason w).
Proof.
  intros Ha Hs. rewrite signal_controller_abort in Hs.
  destruct (controllerSignal w) eqn:Hc.
  - destruct (Ha Hs) as [Hc' _]. congruence.
  - by destruct (signal w).
Qed.

Lemma armed_set_stream timed o c w : armed timed w -> armed timed (set_stream o c w).
Proof. done. Qed.

Lemma armed_set_listeners timed e x a k w :
  armed timed w -> armed timed (set_listeners e x a k w).
Proof. done. Qed.

(** [handleInput] touches neither the option objects nor the launch log, and
    keeps the timer as it is. *)
Lemma handleInput_effect c input w :
  let w' := (handleInput c input w).2 in
  same_store w w' /\
  (forall timed, armed timed w -> armed timed w') /\
  (forall reason, signal w = Some reason -> signal w' = Some reason).
Proof.
  unfold handleInput.
  destruct (bool_decide _ || negb _); [done|].
  unfold try_catch.
  set (post := fun (_ : Value + unit) w1 =>
                 same_store w w1 /\
                 (forall t, armed t w -> armed t w1) /\
                 (forall reason, signal w = Some reason -> signal w1 = Some reason)).
  assert (Hcall : forall c0 w0, post (inr tt) w0 -> wp (host_call c0) post w0).
  { intros c0 w0 (Hst & Har & Hf). apply wp_host_call. intros res o' l'.
    split; [done|split]; [|done].
    intros t Ht. by apply armed_set_stream, Har. }
  assert (Hseq : forall c0 (k : M unit) w0,
            post (inr tt) w0 -> (forall w1, post (inr tt) w1 -> wp k post w1) ->
            wp (host_call c0 ;; k) post w0).
  { intros c0 k w0 Hp Hk. apply wp_bind. eapply wp_mono; [by apply Hcall|].
    intros [v|[]] w1 Hw1; [done|]. by apply Hk. }
  assert (Hmod : forall e x (k : M unit) w0,
            post (inr tt) w0 -> (forall w1, post (inr tt) w1 -> wp k post w1) ->
            wp (modify (fun w => set_listeners (e w) (x w) (abortListener w) (kills w) w) ;; k)
               post w0).
  { intros e x k w0 (Hst & Har & Hf) Hk. apply wp_bind, wp_modify, Hk.
    split; [done|split]; [|done].
    intros t Ht. by apply armed_set_listeners, Har. }
  assert (Hinit : post (inr tt) w) by done.
  assert (Htry : forall body : M unit,
            wp body post w ->
            post (inr tt)
              (match body w with
               | (inl v, w') =>
                   (host_call CallEnd ;; modify (controller_abort (stdin_failure v))) w'
               | (inr a, w') => (inr a, w')
               end).2).
  { intros body Hb. unfold wp in Hb. destruct (body w) as [[v|[]] w1]; simpl in *; [|done].
    assert (wp (host_call CallEnd ;; modify (controller_abort (stdin_failure v))) post w1) as H.
    { apply Hseq; [done|]. intros w2 (Hst & Har & Hf). apply wp_modify. split; [|split].
      - destruct Hst as [Hh Hl]. split; [rewrite <- Hh | rewrite <- Hl];
          unfold controller_abort, dispatch_abort;
          destruct (controllerSignal w2); try done;
          repeat (case_match; try done).
      - intros t Ht. by apply armed_controller_abort, Har.
      - intros reason Hr. by apply controller_abort_fired, Hf. }
    apply H. }
  apply Htry.
  destruct input; try done;
    try (apply Hseq; [done|]; intros w1 H1; by apply Hcall).
  apply Hseq; [done|]. intros w1 H1.
  apply Hseq; [done|]. intros w2 H2.
  apply (Hmod (fun _ => true) errorListener); [done|]. intros w3 H3.
  apply Hseq; [done|]. intros w4 (Hst & Har & Hf).
  apply wp_modify. split; [done|split]; [|done].
  intros t Ht. by apply armed_set_listeners, Har.
Qed.

(** *** The synchronous part of [spawn] *)

Lemma deref_lookup l w o : heap w !! l = Some o -> deref l w = o.
Proof. unfold deref. by intros ->. Qed.

Lemma fresh_ref_ne l (w : World) o :
  heap w !! l = Some o -> fresh (dom (heap w)) <> l.
Proof.
  intros Hl Heq. apply (is_fresh (dom (heap w))). rewrite Heq.
  apply elem_of_dom. by eexists.
Qed.

Lemma spawn_launch_spec H command args l w o :
  heap w !! l = Some o ->
  wp (spawn_launch H command args l)
     (fun res w' =>
        (forall l0 o0, heap w !! l0 = Some o0 -> heap w' !! l0 = Some o0) /\
        launches w' = launches w ++ [(command, args, host_options o)] /\
        armed (truthy (get o "timeout")) w' /\
        match res with
        | inl _ => True
        | inr r =>
            options r = l /\
            encoding r = as_string (js_or (get o "encoding") (VStr "utf8")) /\
            maxBuffer r = as_number (js_or (get o "maxBuffer") (VNum default_maxBuffer)) /\
            timeoutId r = truthy (get o "timeout")
        end) w.
Proof.
  intros Hl. pose proof (fun l0 => fresh_ref_ne l0 w) as Hne.
  unfold wp, spawn_launch, setupAbortHandling, spread, alloc, delete_prop,
    childProcess_spawn, bind, gets, modify, ret, deref.
  destruct w as [h orc cl cs ctl any ta el erl al k ln]. simpl in *.
  rewrite Hl. simpl.
  set (l' := fresh (dom h)) in *.
  rewrite !alter_insert_eq, lookup_insert_eq. simpl. fold (host_options o).
  destruct (host_spawn H command args (host_options o)) as [[v|c] o'] eqn:Hhost; simpl.
  { split; [|split; [done|split; [|done]]]; [|by unfold armed, signal].
    intros l0 o0 Hl0. rewrite !lookup_insert_ne by eauto. done. }
  match goal with
  | |- context [handleInput ?c ?i ?W] =>
      pose proof (handleInput_effect c i W) as Heff;
      destruct (handleInput c i W) as [[v|[]] w2]
  end; unfold same_store in Heff; simpl in Heff; destruct Heff as ([Hh Hlg] & Har & _);
    simpl; rewrite ?Hh, ?Hlg.
  - split; [|split; [done|split; [|done]]].
    + intros l0 o0 Hl0. rewrite !lookup_insert_ne by eauto. done.
    + apply Har. by unfold armed, signal.
  - split; [|split; [done|split; [|done]]].
    + intros l0 o0 Hl0. rewrite !lookup_insert_ne by eauto. done.
    + apply armed_set_listeners, Har. by unfold armed, signal.
Qed.

(** *** The synchronous part of [exec] *)

Lemma exec_launch_spec H command l w o :
  heap w !! l = Some o ->
  wp (exec_launch H command l)
     (fun res w' =>
        (forall l0 o0, heap w !! l0 = Some o0 -> heap w' !! l0 = Some o0) /\
        armed (truthy (get o "timeout")) w' /\
        match res with
        | inl _ => True
        | inr a =>
            (exists o', heap w' !! options (running a) = Some o' /\
                        get o' "timeout" = get o "timeout") /\
            encoding (running a) = as_string (js_or (get o "encoding") (VStr "utf8")) /\
            timeoutId (running a) = truthy (get o "timeout")
        end) w.
Proof.
  intros Hl. pose proof (fun l0 => fresh_ref_ne l0 w) as Hne.
  unfold exec_launch.
  do 3 (apply wp_bind, wp_gets).
  rewrite (deref_lookup _ _ _ Hl).
  case_bool_decide as Hinput; simpl.
  - (* no input: the buffering host *)
    unfold wp, setupAbortHandling, spread, alloc, delete_prop, set_prop,
      execAsync, bind, gets, modify, ret, deref.
    destruct w as [h orc cl cs ctl any ta el erl al k ln]. simpl in *.
    rewrite Hl. simpl.
    set (l' := fresh (dom h)) in *.
    rewrite !alter_insert_eq, lookup_insert_eq. simpl.
    destruct (host_exec H command _) as [[v|c] o'] eqn:Hhost; simpl.
    + split; [|split; [|done]]; [|by unfold armed, signal].
      intros l0 o0 Hl0. rewrite !lookup_insert_ne by eauto. done.
    + split; [|split; [|split; [|done]]]; [|by unfold armed, signal|].
      * intros l0 o0 Hl0. rewrite !lookup_insert_ne by eauto. done.
      * exists o. split; [|done]. rewrite !lookup_insert_ne by eauto. done.
  - (* input: delegate to [spawn] on a copy *)
    unfold spread, alloc, set_prop.
    apply wp_bind. apply wp_bind, wp_gets. unfold wp at 1. simpl.
    apply wp_bind, wp_modify. simpl.
    rewrite alter_insert_eq, (deref_lookup _ _ _ Hl).
    set (l' := fresh (dom (heap w))) in *.
    set (w2 := set_heap _ _).
    assert (Hl2 : heap w2 !! l' = Some (<["shell" := VBool true]> o)).
    { unfold w2. simpl. by rewrite lookup_insert_eq. }
    apply wp_bind.
    eapply wp_mono; [apply (spawn_launch_spec _ _ _ _ _ _ Hl2)|].
    intros [v|r] w3 (Hframe & _ & Harmed & Hr); simpl.
    + split; [|split; [|done]].
      * intros l0 o0 Hl0. apply Hframe. unfold w2. simpl.
        rewrite lookup_insert_ne by eauto. done.
      * unfold get in *. by rewrite lookup_insert_ne in Harmed.
    + apply wp_ret. destruct Hr as (Hopt & Henc & _ & Htid).
      unfold get in *. rewrite !lookup_insert_ne in * by done.
      split; [|split; [done|split; [|done]]].
      * intros l0 o0 Hl0. apply Hframe. unfold w2. simpl.
        rewrite lookup_insert_ne by eauto. done.
      * simpl. rewrite Hopt. eexists. split; [by apply Hframe|].
        by rewrite lookup_insert_ne.
Qed.

(** *** The awaiting part *)

Lemma spawn_await_app r pre events st :
  Forall (fun e => settles_spawn e = false) pre ->
  spawn_await r (pre ++ events) st = spawn_await r events (spawn_steps r pre st).
Proof.
  intros Hpre. revert st.
  induction Hpre as [|e pre He _ IH]; intros st; [done|].
  simpl. rewrite <- IH. by destruct e.
Qed.

Lemma exec_await_app r pre events w :
  Forall (fun e => settles_exec e = false) pre ->
  exec_await r (pre ++ events) w = exec_await r events (exec_steps r pre w).
Proof.
  intros Hpre. revert w.
  induction Hpre as [|e pre He _ IH]; intros w; [done|].
  simpl. rewrite <- IH. by destruct e.
Qed.

(** How a settled call leaves the world: the events up to the settling one,
    then [cleanup]. *)
Lemma await_settled_world a pre e rest w :
  Forall (fun e => settles a e = false) pre ->
  settles a e = true ->
  (await a (pre ++ e :: rest) w).2 = cleanup (running a) (after a pre w).
Proof.
  intros Hpre He. destruct a as [r|r]; simpl in *.
  - rewrite spawn_await_app by done.
    destruct (spawn_steps r pre (no_output, w)) as [acc w2]; simpl.
    destruct e; try done; simpl. by destruct (signal w2).
  - rewrite exec_await_app by done.
    destruct e; try done; simpl. by destruct (signal (exec_steps r pre w)).
Qed.

Lemma await_pending a events w :
  Forall (fun e => settles a e = false) events ->
  await a events w = (Pending, after a events w).
Proof.
  intros Hev. destruct a as [r|r]; simpl in *.
  - generalize (no_output, w). induction Hev as [|e events He _ IH]; intros st; [done|].
    simpl. rewrite <- IH. by destruct e.
  - revert w. induction Hev as [|e events He _ IH]; intros w; [done|].
    simpl. rewrite <- IH. by destruct e.
Qed.

Lemma stdout_bytes_snoc c events e :
  stdout_bytes c (events ++ [e]) =
    stdout_bytes c events ++
      match e with
      | StdoutData b => if has_stdout c then b else []
      | _ => []
      end.
Proof.
  unfold stdout_bytes. destruct (has_stdout c).
  - rewrite omap_app, concat_app. f_equal. destruct e; simpl; try done.
    by rewrite app_nil_r.
  - by destruct e.
Qed.

Lemma stderr_bytes_snoc c events e :
  stderr_bytes c (events ++ [e]) =
    stderr_bytes c events ++
      match e with
      | StderrData (ChunkBuffer b) => if has_stderr c then b else []
      | _ => []
      end.
Proof.
  unfold stderr_bytes. destruct (has_stderr c).
  - rewrite omap_app, concat_app. f_equal. destruct e as [|[b|v]| | | | | | | |]; simpl; try done.
    by rewrite app_nil_r.
  - by destruct e as [|[b|v]| | | | | | | |].
Qed.

Lemma spawn_step_holds r done_ e st :
  match e with StderrData (ChunkOther _) => False | _ => True end ->
  holds (child r) done_ st.1 ->
  holds (child r) (done_ ++ [e]) (spawn_step r e st).1.
Proof.
  intros He (Hd & Hdl & He' & Hel). destruct st as [a w]; simpl in *.
  unfold holds. rewrite stdout_bytes_snoc, stderr_bytes_snoc.
  destruct e as [b|[b|v]| | | | | | | |]; simpl; try done;
    rewrite ?app_nil_r; try done.
  - unfold on_stdout. destruct (has_stdout (child r)); simpl.
    + destruct (exceeds _ _); simpl;
        rewrite concat_app, length_app, Hd, Hdl; simpl; rewrite app_nil_r;
        (split; [done|split; [lia|done]]).
    + by rewrite app_nil_r.
  - unfold on_stderr. destruct (has_stderr (child r)); simpl.
    + destruct (exceeds _ _); simpl;
        rewrite concat_app, length_app, He', Hel; simpl; rewrite app_nil_r;
        (split; [done|split; [done|split; [done|lia]]]).
    + by rewrite app_nil_r.
  - by destruct (endListener w).
  - by destruct (errorListener w).
Qed.

Lemma spawn_steps_holds r events done_ st :
  buffer_chunks events ->
  holds (child r) done_ st.1 ->
  holds (child r) (done_ ++ events) (spawn_steps r events st).1.
Proof.
  intros Hb. revert done_ st.
  induction Hb as [|e events He _ IH]; intros done_ st Hst.
  - by rewrite app_nil_r.
  - simpl. rewrite (assoc_L _ done_ [e] events : done_ ++ e :: events = (done_ ++ [e]) ++ events).
    apply IH. by apply spawn_step_holds.
Qed.

Lemma Buffer_concat_exact (chunks : list Buffer) :
  Buffer_concat chunks (Z.of_nat (length (concat chunks))) = concat chunks.
Proof.
  unfold Buffer_concat. rewrite Nat2Z.id.
  by rewrite take_app_length.
Qed.

(** The events of the awaiting part never touch the option objects. *)
Lemma dispatch_abort_heap before w : heap (dispatch_abort before w) = heap w.
Proof. unfold dispatch_abort. by repeat case_match. Qed.

Lemma controller_abort_heap reason w : heap (controller_abort reason w) = heap w.
Proof.
  unfold controller_abort. destruct (controllerSignal w); [done|].
  by rewrite dispatch_abort_heap.
Qed.

Lemma caller_abort_heap reason w : heap (caller_abort reason w) = heap w.
Proof.
  unfold caller_abort. destruct (callerSignal w); [done|].
  by rewrite dispatch_abort_heap.
Qed.

Lemma on_timer_heap r w : heap (on_timer r w) = heap w.
Proof.
  unfold on_timer. destruct (timerArmed w); [|done].
  by rewrite controller_abort_heap.
Qed.

Lemma on_caller_abort_heap reason w : heap (on_caller_abort reason w) = heap w.
Proof.
  unfold on_caller_abort. destruct (anySignal w); [|done].
  by rewrite caller_abort_heap.
Qed.

Lemma spawn_step_heap r e st : heap (spawn_step r e st).2 = heap st.2.
Proof.
  destruct st as [a w]. destruct e; simpl; try done.
  - destruct (has_stdout (child r)); [|done]. simpl.
    destruct (exceeds _ _); [|done]. simpl. by rewrite controller_abort_heap.
  - destruct (has_stderr (child r)); [|done]. simpl.
    destruct (exceeds _ _); [|done]. simpl. by rewrite controller_abort_heap.
  - destruct (endListener w); [|done]. simpl.
    done.
  - destruct (errorListener w); [|done]. simpl.
    by rewrite controller_abort_heap.
  - apply on_timer_heap.
  - apply on_caller_abort_heap.
Qed.

Lemma spawn_steps_heap r events st : heap (spawn_steps r events st).2 = heap st.2.
Proof.
  revert st. induction events as [|e events IH]; intros st; [done|].
  simpl. by rewrite IH, spawn_step_heap.
Qed.

Lemma exec_step_heap r e w : heap (exec_step r e w) = heap w.
Proof.
  destruct e; simpl; try done.
  - apply on_timer_heap.
  - apply on_caller_abort_heap.
Qed.

Lemma exec_steps_heap r events w : heap (exec_steps r events w) = heap w.
Proof.
  revert w. induction events as [|e events IH]; intros w; [done|].
  simpl. by rewrite IH, exec_step_heap.
Qed.

Lemma cleanup_heap r w : heap (cleanup r w) = heap w.
Proof. unfold cleanup. by destruct (timeoutId r). Qed.

(** *** The timer stays pending until the signal fires *)

Lemma armed_dispatch_abort timed before w :
  armed timed w -> armed timed (dispatch_abort before w).
Proof.
  intros Ha Hs. rewrite signal_dispatch_abort in Hs.
  unfold dispatch_abort. rewrite Hs. destruct before; by apply Ha.
Qed.

Lemma armed_caller_abort timed reason w :
  anySignal w <> None -> armed timed w -> armed timed (caller_abort reason w).
Proof.
  intros Hany Ha Hs. rewrite signal_caller_abort in Hs.
  destruct (callerSignal w) eqn:Hc.
  - unfold caller_abort. rewrite Hc. apply Ha.
    by destruct (anySignal w).
  - destruct (anySignal w) as [[s|]|]; done.
Qed.

Lemma armed_on_timer timed r w : armed timed w -> armed timed (on_timer r w).
Proof.
  intros Ha Hs. unfold on_timer in *.
  destruct (timerArmed w) eqn:Ht; [|by apply Ha].
  rewrite signal_controller_abort in Hs. simpl in Hs.
  destruct (controllerSignal w) eqn:Hc.
  - destruct (Ha Hs) as [Hc' _]. congruence.
  - by destruct (signal (set_timerArmed false w)).
Qed.

Lemma armed_on_caller_abort timed reason w :
  armed timed w -> armed timed (on_caller_abort reason w).
Proof.
  intros Ha. unfold on_caller_abort. destruct (anySignal w) eqn:Hany; [|done].
  apply armed_caller_abort; [by rewrite Hany|done].
Qed.

Lemma armed_spawn_step timed r e st :
  armed timed st.2 -> armed timed (spawn_step r e st).2.
Proof.
  intros Ha. destruct st as [a w]; simpl in Ha.
  destruct e; simpl; try done.
  - destruct (has_stdout (child r)); [|done]. simpl.
    destruct (exceeds _ _); [|done]. simpl. by apply armed_controller_abort.
  - destruct (has_stderr (child r)); [|done]. simpl.
    destruct (exceeds _ _); [|done]. simpl. by apply armed_controller_abort.
  - destruct (endListener w); [|done]. simpl.
    done.
  - destruct (errorListener w); [|done]. simpl.
    by apply armed_controller_abort.
  - by apply armed_on_timer.
  - by apply armed_on_caller_abort.
Qed.

Lemma armed_exec_step timed r e w : armed timed w -> armed timed (exec_step r e w).
Proof.
  intros Ha. destruct e; simpl; try done.
  - by apply armed_on_timer.
  - by apply armed_on_caller_abort.
Qed.

Lemma armed_spawn_steps timed r events st :
  armed timed st.2 -> armed timed (spawn_steps r events st).2.
Proof.
  revert st. induction events as [|e events IH]; intros st Ha; [done|].
  simpl. apply IH. by apply armed_spawn_step.
Qed.

Lemma armed_exec_steps timed r events w :
  armed timed w -> armed timed (exec_steps r events w).
Proof.
  revert w. induction events as [|e events IH]; intros w Ha; [done|].
  simpl. apply IH. by apply armed_exec_step.
Qed.

(** The timer callback, when the signal has not fired, fires it. *)
Lemma on_timer_fires r w :
  armed true w -> signal w = None ->
  signal (on_timer r w) =
    Some (timeout_reason (get (deref (options r) w) "timeout")).
Proof.
  intros Ha Hs. destruct (Ha Hs) as [Hc Ht].
  unfold on_timer. rewrite Ht, signal_controller_abort. simpl.
  rewrite Hc. change (signal (set_timerArmed false w)) with (signal w).
  by rewrite Hs.
Qed.

(** *** How a call settles *)

Lemma createErrorResult_fired thrown m proc :
  createErrorResult thrown (Some (VErr m)) proc =
    {| data := None; dataAsBuffer := None;
       error := Some {| name := "ExecUtilsError"; message := m; code := Some (-1) |};
       exitCode := Some (-1); process := proc |}.
Proof. by destruct thrown. Qed.

Lemma createErrorResult_message thrown sig proc :
  createErrorResult thrown sig proc =
    {| data := None; dataAsBuffer := None;
       error := Some {| name := "ExecUtilsError";
                        message := abnormal_message thrown sig;
                        code := Some (-1) |};
       exitCode := Some (-1); process := proc |}.
Proof. destruct sig as [[]|]; destruct thrown; done. Qed.

Lemma await_abnormal a pre e rest w thrown :
  Forall (fun e => settles a e = false) pre ->
  settles a e = true ->
  caught (signal (after a pre w)) e = Some thrown ->
  (await a (pre ++ e :: rest) w).1 =
    Resolved (createErrorResult thrown (signal (after a pre w)) (child (running a))).
Proof.
  intros Hpre He Hc. destruct a as [r|r]; simpl in *.
  - rewrite spawn_await_app by done.
    destruct (spawn_steps r pre (no_output, w)) as [acc w2]; simpl in *.
    destruct e; try done; simpl in *.
    + by rewrite Hc.
    + by inversion Hc.
  - rewrite exec_await_app by done.
    destruct e; try done; simpl in *.
    + by rewrite Hc.
    + by inversion Hc.
Qed.

Lemma after_app_fired a pre e post w reason :
  signal (after a (pre ++ [e]) w) = Some reason ->
  signal (after a (pre ++ e :: post) w) = Some reason.
Proof.
  destruct a as [r|r]; simpl; unfold spawn_steps, exec_steps;
    rewrite !foldl_app; simpl; intros Hs.
  - by apply spawn_steps_fired.
  - by apply exec_steps_fired.
Qed.

Lemma after_timer a pre w :
  armed true w ->
  signal (after a pre w) = None ->
  signal (after a (pre ++ [TimerFired]) w) =
    Some (timeout_reason (get (deref (options (running a)) w) "timeout")).
Proof.
  intros Ha Hs.
  destruct a as [r|r]; simpl in *; unfold spawn_steps, exec_steps;
    rewrite foldl_app; simpl.
  - fold (spawn_steps r pre (no_output, w)).
    rewrite on_timer_fires; [|by apply (armed_spawn_steps true r pre (no_output, w))|done].
    unfold deref. by rewrite spawn_steps_heap.
  - fold (exec_steps r pre w).
    rewrite on_timer_fires; [|by apply armed_exec_steps|done].
    unfold deref. by rewrite exec_steps_heap.
Qed.

Lemma timeout_await a pre post e rest w :
  armed true w ->
  Forall (fun e => settles a e = false) pre ->
  signal (after a pre w) = None ->
  Forall (fun e => settles a e = false) post ->
  settles a e = true ->
  (await a (pre ++ TimerFired :: post ++ e :: rest) w).1 =
    Resolved
      {| data := None; dataAsBuffer := None;
         error := Some {| name := "ExecUtilsError";
                          message := "Command timed out after " +:+
                                     js_String (get (deref (options (running a)) w) "timeout")
                                     +:+ "ms";
                          code := Some (-1) |};
         exitCode := Some (-1); process := child (running a) |}.
Proof.
  intros Ha Hpre Hs Hpost He.
  pose proof (after_timer a pre w Ha Hs) as Hfired.
  apply (after_app_fired _ _ _ post) in Hfired.
  replace (pre ++ TimerFired :: post ++ e :: rest)
    with ((pre ++ TimerFired :: post) ++ e :: rest)
    by (by rewrite <- app_assoc).
  assert (Hall : Forall (fun e => settles a e = false) (pre ++ TimerFired :: post)).
  { apply Forall_app. split; [done|]. constructor; [by destruct a|done]. }
  assert (exists thrown, caught (signal (after a (pre ++ TimerFired :: post) w)) e
                         = Some thrown) as [thrown Hthrown].
  { rewrite Hfired. destruct a, e; simpl in *; try done; eauto. }
  rewrite (await_abnormal a _ e rest w thrown Hall He Hthrown), Hfired.
  unfold timeout_reason. by rewrite createErrorResult_fired.
Qed.

(** ** The clean exit path *)

Lemma clean_exit_await r w1 pre n rest :
  Forall (fun e => settles_spawn e = false) pre ->
  buffer_chunks pre ->
  signal (spawn_steps r pre (no_output, w1)).2 = None ->
  (spawn_await r (pre ++ Close (Some n) :: rest) (no_output, w1)).1 =
    Resolved
      (if bool_decide (n = 0)
       then {| data := Some (Buffer_toString (encoding r) (stdout_bytes (child r) pre));
               dataAsBuffer := Some (stdout_bytes (child r) pre);
               error := None;
               exitCode := Some 0;
               process := child r |}
       else {| data := None;
               dataAsBuffer := None;
               error := Some {| name := "ExecUtilsError";
                                message := Buffer_toString "utf8"
                                             (stderr_bytes (child r) pre);
                                code := Some n |};
               exitCode := Some n;
               process := child r |}).
Proof.
  intros Hpre Hbuf Hsig.
  rewrite spawn_await_app by done.
  pose proof (spawn_steps_holds r pre [] (no_output, w1) Hbuf) as Hholds.
  simpl in Hholds.
  destruct (spawn_steps r pre (no_output, w1)) as [a w2]; simpl in *.
  rewrite Hsig. simpl.
  destruct Hholds as (Hd & Hdl & He & Hel).
  { unfold holds, stdout_bytes, stderr_bytes. simpl. by repeat case_match. }
  unfold createResult. rewrite Hdl, Hel, <- Hd, <- He, !Buffer_concat_exact.
  case_bool_decide as Hn.
  - by subst n.
  - by destruct n.
Qed.

(** C3. When the child's exit code [n] is observed and the cancellation
    signal has not fired, the call resolves: with [n = 0], to the success
    variant whose [data] is the bytes of the output stream decoded with the
    configured encoding and whose [dataAsBuffer] is those bytes; with
    [n <> 0], to the failure variant whose message is the bytes of the error
    stream decoded as UTF-8, verbatim, and whose error code is [n].  This is
    [spawn], and [exec] when it hands an input over to [spawn]. *)
Theorem clean_exit_result H command args l w o pre n rest :
  heap w !! l = Some o ->
  Forall (fun e => settles_spawn e = false) pre ->
  buffer_chunks pre ->
  let expected r :=
    Resolved
      (if bool_decide (n = 0)
       then {| data := Some (Buffer_toString
                               (as_string (js_or (get o "encoding") (VStr "utf8")))
                               (stdout_bytes (child r) pre));
               dataAsBuffer := Some (stdout_bytes (child r) pre);
               error := None;
               exitCode := Some 0;
               process := child r |}
       else {| data := None;
               dataAsBuffer := None;
               error := Some {| name := "ExecUtilsError";
                                message := Buffer_toString "utf8"
                                             (stderr_bytes (child r) pre);
                                code := Some n |};
               exitCode := Some n;
               process := child r |}) in
  (forall r w1,
     spawn_launch H command args l w = (inr r, w1) ->
     signal (spawn_steps r pre (no_output, w1)).2 = None ->
     (spawn H command args l (pre ++ Close (Some n) :: rest) w).1 = expected r) /\
  (forall r w1,
     exec_launch H command l w = (inr (AwaitClose r), w1) ->
     signal (spawn_steps r pre (no_output, w1)).2 = None ->
     (exec H command l (pre ++ Close (Some n) :: rest) w).1 = expected r).
Proof.
  intros Hl Hpre Hbuf expected. split; intros r w1 Hlaunch Hsig.
  - pose proof (spawn_launch_spec H command args l w o Hl) as Hspec.
    unfold wp in Hspec. unfold spawn. rewrite Hlaunch in *. simpl in Hspec.
    destruct Hspec as (_ & _ & _ & _ & Henc & _).
    rewrite clean_exit_await by done. unfold expected. by rewrite Henc.
  - pose proof (exec_launch_spec H command l w o Hl) as Hspec.
    unfold wp in Hspec. unfold exec. rewrite Hlaunch in *. simpl in Hspec.
    destruct Hspec as (_ & _ & _ & Henc & _).
    unfold await. rewrite clean_exit_await by done. unfold expected. by rewrite Henc.
Qed.

(** ** The abnormal path *)

Lemma await_abnormal_message a pre e rest w thrown :
  Forall (fun e => settles a e = false) pre ->
  settles a e = true ->
  caught (signal (after a pre w)) e = Some thrown ->
  (await a (pre ++ e :: rest) w).1 =
    Resolved
      {| data := None; dataAsBuffer := None;
         error := Some {| name := "ExecUtilsError";
                          message := abnormal_message thrown (signal (after a pre w));
                          code := Some (-1) |};
         exitCode := Some (-1); process := child (running a) |}.
Proof.
  intros Hpre He Hc.
  rewrite (await_abnormal a pre e rest w thrown Hpre He Hc).
  by rewrite createErrorResult_message.
Qed.

(** C4. When a launched call ends abnormally (the settling event finds the
    signal aborted, or is an error of the child or a rejection of the host's
    promise), it resolves to the failure variant with error code -1; the
    message is the cancellation reason's when the signal fired, "Operation
    aborted" when that reason is not an [Error], and otherwise the thrown
    error's, or "Unknown error occurred" when the thrown value is not an
    [Error].  This holds for [spawn] and for [exec]. *)
Theorem abnormal_result H command args l w pre e rest thrown :
  (forall r w1,
     spawn_launch H command args l w = (inr r, w1) ->
     Forall (fun e => settles_spawn e = false) pre ->
     settles_spawn e = true ->
     caught (signal (after (AwaitClose r) pre w1)) e = Some thrown ->
     (spawn H command args l (pre ++ e :: rest) w).1 =
       Resolved
         {| data := None; dataAsBuffer := None;
            error := Some {| name := "ExecUtilsError";
                             message := abnormal_message thrown
                                          (signal (after (AwaitClose r) pre w1));
                             code := Some (-1) |};
            exitCode := Some (-1); process := child r |}) /\
  (forall a w1,
     exec_launch H command l w = (inr a, w1) ->
     Forall (fun e => settles a e = false) pre ->
     settles a e = true ->
     caught (signal (after a pre w1)) e = Some thrown ->
     (exec H command l (pre ++ e :: rest) w).1 =
       Resolved
         {| data := None; dataAsBuffer := None;
            error := Some {| name := "ExecUtilsError";
                             message := abnormal_message thrown (signal (after a pre w1));
                             code := Some (-1) |};
            exitCode := Some (-1); process := child (running a) |}).
Proof.
  split.
  - intros r w1 Hlaunch Hpre He Hc. unfold spawn. rewrite Hlaunch.
    by apply (await_abnormal_message (AwaitClose r)).
  - intros a w1 Hlaunch Hpre He Hc. unfold exec. rewrite Hlaunch.
    by apply await_abnormal_message.
Qed.

(** ** The cancellation latch *)

Lemma trigger_after_fired_kills reason other w :
  signal w = Some reason ->
  kills (controller_abort other w) = kills w /\
  kills (caller_abort other w) = kills w.
Proof.
  intros Hs. unfold controller_abort, caller_abort, dispatch_abort.
  rewrite Hs. split.
  - by destruct (controllerSignal w).
  - by destruct (callerSignal w).
Qed.

(** C6. The latch is first-wins: once the effective signal holds a reason,
    no trigger replaces it, be it the controller (timeout, buffer overflow,
    input failure), the caller's signal, the input feeder, or any further
    sequence of events of a call; and a later trigger requests no further
    termination of the child. *)
Theorem cancellation_first_wins w reason :
  signal w = Some reason ->
  (forall other, signal (controller_abort other w) = Some reason /\
                 kills (controller_abort other w) = kills w) /\
  (forall other, signal (caller_abort other w) = Some reason /\
                 kills (caller_abort other w) = kills w) /\
  (forall c input, signal (handleInput c input w).2 = Some reason) /\
  (forall r events acc, signal (spawn_steps r events (acc, w)).2 = Some reason) /\
  (forall r events, signal (exec_steps r events w) = Some reason).
Proof.
  intros Hs. split_and!.
  - intros other. split; [by apply controller_abort_fired|].
    by apply (trigger_after_fired_kills reason).
  - intros other. split; [by apply caller_abort_fired|].
    by apply (trigger_after_fired_kills reason).
  - intros c input. by apply handleInput_effect.
  - intros r events acc. by apply spawn_steps_fired.
  - intros r events. by apply exec_steps_fired.
Qed.

(** ** Timeout *)

(** *** Invariants of the awaiting part, generically *)

Lemma spawn_step_preserves (P : World -> Prop) r e st :
  (forall w o c, P w -> P (set_stream o c w)) ->
  (forall w el x, P w -> P (set_listeners el x (abortListener w) (kills w) w)) ->
  (forall w reason, P w -> P (controller_abort reason w)) ->
  (forall w reason, anySignal w <> None -> P w -> P (caller_abort reason w)) ->
  (forall w, P w -> P (set_timerArmed false w)) ->
  P st.2 -> P (spawn_step r e st).2.
Proof.
  intros Hstream Hlisten Hctl Hcaller Htimer HP.
  destruct st as [a w]; simpl in HP.
  destruct e; simpl; try done.
  - destruct (has_stdout (child r)); [|done]. simpl.
    destruct (exceeds _ _); [|done]. simpl. by apply Hctl.
  - destruct (has_stderr (child r)); [|done]. simpl.
    destruct (exceeds _ _); [|done]. simpl. by apply Hctl.
  - destruct (endListener w); [|done]. simpl.
    unfold host_call. simpl. by apply Hstream, Hlisten.
  - destruct (errorListener w); [|done]. simpl. by apply Hctl, Hlisten.
  - unfold on_timer. destruct (timerArmed w); [|done]. by apply Hctl, Htimer.
  - unfold on_caller_abort. destruct (anySignal w) eqn:Hany; [|done].
    apply Hcaller; [by rewrite Hany|done].
Qed.

Lemma exec_step_preserves (P : World -> Prop) r e w :
  (forall w reason, P w -> P (controller_abort reason w)) ->
  (forall w reason, anySignal w <> None -> P w -> P (caller_abort reason w)) ->
  (forall w, P w -> P (set_timerArmed false w)) ->
  P w -> P (exec_step r e w).
Proof.
  intros Hctl Hcaller Htimer HP. destruct e; simpl; try done.
  - unfold on_timer. destruct (timerArmed w); [|done]. by apply Hctl, Htimer.
  - unfold on_caller_abort. destruct (anySignal w) eqn:Hany; [|done].
    apply Hcaller; [by rewrite Hany|done].
Qed.

Lemma after_preserves (P : World -> Prop) a pre w :
  (forall w o c, P w -> P (set_stream o c w)) ->
  (forall w el x, P w -> P (set_listeners el x (abortListener w) (kills w) w)) ->
  (forall w reason, P w -> P (controller_abort reason w)) ->
  (forall w reason, anySignal w <> None -> P w -> P (caller_abort reason w)) ->
  (forall w, P w -> P (set_timerArmed false w)) ->
  P w -> P (after a pre w).
Proof.
  intros Hstream Hlisten Hctl Hcaller Htimer HP.
  destruct a as [r|r]; simpl.
  - generalize (no_output, w) (HP : P (no_output, w).2).
    induction pre as [|e pre IH]; intros st Hst; [done|].
    simpl. apply IH. by apply spawn_step_preserves.
  - revert w HP. induction pre as [|e pre IH]; intros w HP; [done|].
    simpl. apply IH. by apply exec_step_preserves.
Qed.

Lemma spawn_steps_preserves (P : World -> Prop) r events st :
  (forall w o c, P w -> P (set_stream o c w)) ->
  (forall w el x, P w -> P (set_listeners el x (abortListener w) (kills w) w)) ->
  (forall w reason, P w -> P (controller_abort reason w)) ->
  (forall w reason, anySignal w <> None -> P w -> P (caller_abort reason w)) ->
  (forall w, P w -> P (set_timerArmed false w)) ->
  P st.2 -> P (spawn_steps r events st).2.
Proof.
  intros Hstream Hlisten Hctl Hcaller Htimer. revert st.
  induction events as [|e events IH]; intros st Hst; [done|].
  simpl. apply IH. by apply spawn_step_preserves.
Qed.

Lemma exec_steps_preserves (P : World -> Prop) r events w :
  (forall w reason, P w -> P (controller_abort reason w)) ->
  (forall w reason, anySignal w <> None -> P w -> P (caller_abort reason w)) ->
  (forall w, P w -> P (set_timerArmed false w)) ->
  P w -> P (exec_steps r events w).
Proof.
  intros Hctl Hcaller Htimer. revert w.
  induction events as [|e events IH]; intros w HP; [done|].
  simpl. apply IH. by apply exec_step_preserves.
Qed.

(** Case analysis on the controls of a world. *)
Ltac controls :=
  intros;
  repeat match goal with w : World |- _ => destruct w end;
  unfold controller_abort, caller_abort, dispatch_abort, signal in *;
  simpl in *;
  repeat (case_match; simpl in *; simplify_eq);
  try done; try (intuition congruence).

Lemma wp_bind_any {A B} (m : M A) (k : A -> M B) (Q : Value + B -> World -> Prop) w :
  (forall v w', Q (inl v) w') -> (forall a w', wp (k a) Q w') -> wp (bind m k) Q w.
Proof.
  intros Hv Hk. unfold wp, bind. destruct (m w) as [[v|a] w']; [apply Hv|apply Hk].
Qed.

(** The ['abort'] listener is registered last in the synchronous part of
    either runner, lines 159-166 and 260-267. *)
Lemma spawn_launch_listens H command args l w :
  wp (spawn_launch H command args l)
     (fun res w1 => match res with
                    | inl _ => True
                    | inr _ => abortListener w1 = true
                    end) w.
Proof.
  unfold spawn_launch.
  do 11 (apply wp_bind_any; [done|intros ? ?]).
  done.
Qed.

Lemma exec_launch_listens H command l w :
  wp (exec_launch H command l)
     (fun res w1 => match res with
                    | inl _ => True
                    | inr _ => abortListener w1 = true
                    end) w.
Proof.
  unfold exec_launch.
  do 3 (apply wp_bind_any; [done|intros ? ?]).
  destruct (negb _).
  - do 2 (apply wp_bind_any; [done|intros ? ?]).
    apply wp_bind. eapply wp_mono; [apply spawn_launch_listens|].
    by intros [?|?] ?.
  - do 7 (apply wp_bind_any; [done|intros ? ?]).
    done.
Qed.

(** While the signal has not fired, the listener waits. *)
Lemma after_listens a pre w :
  abortListener w = true ->
  signal (after a pre w) = None -> abortListener (after a pre w) = true.
Proof.
  intros Hal.
  apply (after_preserves (fun w => signal w = None -> abortListener w = true));
    by controls.
Qed.

(** The timer callback on a signal that has not fired: the listener runs
    once, which is one request to terminate the child, and the timer is
    gone. *)
Lemma on_timer_kills r w :
  armed true w -> signal w = None -> abortListener w = true ->
  signal (on_timer r w) <> None /\
  kills (on_timer r w) = S (kills w) /\
  timerArmed (on_timer r w) = false.
Proof.
  intros Ha Hs Hal. destruct (Ha Hs) as [Hc Ht].
  unfold on_timer. rewrite Ht. by controls.
Qed.

(** Once the signal has fired, no event requests a termination. *)
Lemma after_fired_kills a pre post w k :
  signal (after a pre w) <> None /\ kills (after a pre w) = k ->
  signal (after a (pre ++ post) w) <> None /\ kills (after a (pre ++ post) w) = k.
Proof.
  destruct a as [r|r]; simpl; unfold spawn_steps, exec_steps; rewrite foldl_app.
  - apply (spawn_steps_preserves (fun w => signal w <> None /\ kills w = k));
      by controls.
  - apply (exec_steps_preserves (fun w => signal w <> None /\ kills w = k));
      by controls.
Qed.

Lemma after_snoc_timer a pre w :
  after a (pre ++ [TimerFired]) w = on_timer (running a) (after a pre w).
Proof.
  destruct a as [r|r]; simpl; unfold spawn_steps, exec_steps; by rewrite foldl_app.
Qed.

Lemma timeout_kills a pre post w :
  armed true w ->
  abortListener w = true ->
  signal (after a pre w) = None ->
  kills (after a (pre ++ TimerFired :: post) w) = S (kills (after a pre w)) /\
  timerArmed (after a (pre ++ [TimerFired]) w) = false.
Proof.
  intros Ha Hal Hs.
  assert (Ha' : armed true (after a pre w)).
  { destruct a; simpl; [by apply (armed_spawn_steps true _ _ (no_output, w))
                       |by apply armed_exec_steps]. }
  pose proof (after_listens a pre w Hal Hs) as Hal'.
  destruct (on_timer_kills (running a) _ Ha' Hs Hal') as (Hf & Hk & Ht).
  rewrite <- after_snoc_timer in Hf, Hk, Ht.
  split; [|done].
  replace (pre ++ TimerFired :: post) with ((pre ++ [TimerFired]) ++ post)
    by (by rewrite <- app_assoc).
  by apply after_fired_kills.
Qed.

(** The text of the timeout reason: the decimal digits of a safe integer,
    and the platform's shortest form of any other finite number, such as
    1.5 or 1e+21. *)
Lemma timeout_reason_forms :
  (forall n : Z, Z.abs n <= MAX_SAFE_INTEGER ->
     timeout_reason (VNum n) =
       VErr ("Command timed out after " +:+ pretty n +:+ "ms")) /\
  (forall n : Z, MAX_SAFE_INTEGER < Z.abs n ->
     timeout_reason (VNum n) =
       VErr ("Command timed out after " +:+ Number_shortest n +:+ "ms")) /\
  (forall m k,
     timeout_reason (VNum (Fraction m k)) =
       VErr ("Command timed out after " +:+ Number_shortest (Fraction m k) +:+ "ms")).
Proof.
  unfold timeout_reason. simpl. split_and!; [| |done].
  - intros n Hn. by rewrite (proj2 (Z.leb_le _ _) Hn).
  - intros n Hn. by rewrite (proj2 (Z.leb_gt _ _) Hn).
Qed.

(** C7. With [options.timeout] a truthy number [x], a timer is pending after
    the launch.  When it fires before any other trigger and before the child
    settles:
    - the signal takes the reason "Command timed out after <x>ms", [x]
      printed as [String(x)] prints it;
    - the ['abort'] listener runs: the timer is cleared and the child is
      sent one termination request, and no later event sends another;
    - the call stays pending until the child settles, which is the host's
      answer to that request, and then resolves to the failure variant with
      error code -1 and that message.
    This holds for [spawn] and for [exec]. *)
Theorem timeout_result H command args l w o x pre post e rest :
  heap w !! l = Some o ->
  get o "timeout" = VNum x ->
  truthy (VNum x) = true ->
  (forall r w1,
     spawn_launch H command args l w = (inr r, w1) ->
     Forall (fun e => settles_spawn e = false) pre ->
     signal (after (AwaitClose r) pre w1) = None ->
     Forall (fun e => settles_spawn e = false) post ->
     settles_spawn e = true ->
     timerArmed (after (AwaitClose r) pre w1) = true /\
     signal (after (AwaitClose r) (pre ++ [TimerFired]) w1) =
       Some (VErr ("Command timed out after " +:+ Number_toString x +:+ "ms")) /\
     timerArmed (after (AwaitClose r) (pre ++ [TimerFired]) w1) = false /\
     kills (after (AwaitClose r) (pre ++ TimerFired :: post) w1) =
       S (kills (after (AwaitClose r) pre w1)) /\
     (spawn H command args l (pre ++ TimerFired :: post) w).1 = Pending /\
     (spawn H command args l (pre ++ TimerFired :: post ++ e :: rest) w).1 =
       Resolved
         {| data := None; dataAsBuffer := None;
            error := Some {| name := "ExecUtilsError";
                             message := "Command timed out after " +:+
                                        Number_toString x +:+ "ms";
                             code := Some (-1) |};
            exitCode := Some (-1); process := child r |}) /\
  (forall a w1,
     exec_launch H command l w = (inr a, w1) ->
     Forall (fun e => settles a e = false) pre ->
     signal (after a pre w1) = None ->
     Forall (fun e => settles a e = false) post ->
     settles a e = true ->
     timerArmed (after a pre w1) = true /\
     signal (after a (pre ++ [TimerFired]) w1) =
       Some (VErr ("Command timed out after " +:+ Number_toString x +:+ "ms")) /\
     timerArmed (after a (pre ++ [TimerFired]) w1) = false /\
     kills (after a (pre ++ TimerFired :: post) w1) = S (kills (after a pre w1)) /\
     (exec H command l (pre ++ TimerFired :: post) w).1 = Pending /\
     (exec H command l (pre ++ TimerFired :: post ++ e :: rest) w).1 =
       Resolved
         {| data := None; dataAsBuffer := None;
            error := Some {| name := "ExecUtilsError";
                             message := "Command timed out after " +:+
                                        Number_toString x +:+ "ms";
                             code := Some (-1) |};
            exitCode := Some (-1); process := child (running a) |}).
Proof.
  intros Hl Ht Htruthy. rewrite <- Ht in Htruthy.
  assert (Hgeneric : forall a w1,
            armed true w1 ->
            abortListener w1 = true ->
            get (deref (options (running a)) w1) "timeout" = VNum x ->
            Forall (fun e => settles a e = false) pre ->
            signal (after a pre w1) = None ->
            Forall (fun e => settles a e = false) post ->
            settles a e = true ->
            timerArmed (after a pre w1) = true /\
            signal (after a (pre ++ [TimerFired]) w1) =
              Some (VErr ("Command timed out after " +:+ Number_toString x +:+ "ms")) /\
            timerArmed (after a (pre ++ [TimerFired]) w1) = false /\
            kills (after a (pre ++ TimerFired :: post) w1) = S (kills (after a pre w1)) /\
            (await a (pre ++ TimerFired :: post) w1).1 = Pending /\
            (await a (pre ++ TimerFired :: post ++ e :: rest) w1).1 =
              Resolved
                {| data := None; dataAsBuffer := None;
                   error := Some {| name := "ExecUtilsError";
                                    message := "Command timed out after " +:+
                                               Number_toString x +:+ "ms";
                                    code := Some (-1) |};
                   exitCode := Some (-1); process := child (running a) |}).
  { intros a w1 Ha Hal Hto Hpre Hs Hpost He.
    destruct (timeout_kills a pre post w1 Ha Hal Hs) as [Hkills Hoff].
    split_and!; [| | done | done | |].
    - assert (armed true (after a pre w1)) as Ha'.
      { destruct a; simpl; [by apply (armed_spawn_steps true _ _ (no_output, w1))
                           |by apply armed_exec_steps]. }
      by apply Ha'.
    - rewrite after_timer by done. by rewrite Hto.
    - rewrite await_pending; [done|].
      apply Forall_app. split; [done|]. constructor; [by destruct a|done].
    - rewrite timeout_await by done. by rewrite Hto. }
  split.
  - intros r w1 Hlaunch Hpre Hs Hpost He.
    pose proof (spawn_launch_spec H command args l w o Hl) as Hspec.
    pose proof (spawn_launch_listens H command args l w) as Hlistens.
    unfold wp in Hspec, Hlistens. rewrite Hlaunch in Hspec, Hlistens.
    simpl in Hspec, Hlistens.
    destruct Hspec as (Hframe & _ & Harmed & Hopt & _).
    rewrite Htruthy in Harmed.
    unfold spawn. rewrite Hlaunch.
    apply (Hgeneric (AwaitClose r) w1); try done.
    simpl. rewrite Hopt. by rewrite (deref_lookup _ _ _ (Hframe _ _ Hl)).
  - intros a w1 Hlaunch Hpre Hs Hpost He.
    pose proof (exec_launch_spec H command l w o Hl) as Hspec.
    pose proof (exec_launch_listens H command l w) as Hlistens.
    unfold wp in Hspec, Hlistens. rewrite Hlaunch in Hspec, Hlistens.
    simpl in Hspec, Hlistens.
    destruct Hspec as (Hframe & Harmed & (o' & Ho' & Hsame) & _).
    rewrite Htruthy in Harmed.
    unfold exec. rewrite Hlaunch.
    apply (Hgeneric a w1); try done.
    by rewrite (deref_lookup _ _ _ Ho'), Hsame.
Qed.

(** ** The options object *)

Lemma dispatch_abort_launches before w :
  launches (dispatch_abort before w) = launches w.
Proof. unfold dispatch_abort. by repeat case_match. Qed.

Lemma controller_abort_launches reason w :
  launches (controller_abort reason w) = launches w.
Proof.
  unfold controller_abort. destruct (controllerSignal w); [done|].
  by rewrite dispatch_abort_launches.
Qed.

Lemma caller_abort_launches reason w :
  launches (caller_abort reason w) = launches w.
Proof.
  unfold caller_abort. destruct (callerSignal w); [done|].
  by rewrite dispatch_abort_launches.
Qed.

Lemma on_timer_launches r w : launches (on_timer r w) = launches w.
Proof.
  unfold on_timer. destruct (timerArmed w); [|done].
  by rewrite controller_abort_launches.
Qed.

Lemma on_caller_abort_launches reason w :
  launches (on_caller_abort reason w) = launches w.
Proof.
  unfold on_caller_abort. destruct (anySignal w); [|done].
  by rewrite caller_abort_launches.
Qed.

Lemma spawn_step_launches r e st : launches (spawn_step r e st).2 = launches st.2.
Proof.
  destruct st as [a w]. destruct e; simpl; try done.
  - destruct (has_stdout (child r)); [|done]. simpl.
    destruct (exceeds _ _); [|done]. simpl. by rewrite controller_abort_launches.
  - destruct (has_stderr (child r)); [|done]. simpl.
    destruct (exceeds _ _); [|done]. simpl. by rewrite controller_abort_launches.
  - destruct (endListener w); [|done]. simpl.
    done.
  - destruct (errorListener w); [|done]. simpl.
    by rewrite controller_abort_launches.
  - apply on_timer_launches.
  - apply on_caller_abort_launches.
Qed.

Lemma exec_step_launches r e w : launches (exec_step r e w) = launches w.
Proof.
  destruct e; simpl; try done.
  - apply on_timer_launches.
  - apply on_caller_abort_launches.
Qed.

Lemma cleanup_launches r w : launches (cleanup r w) = launches w.
Proof. unfold cleanup. by destruct (timeoutId r). Qed.

(** Awaiting changes neither the option objects nor the launch log. *)
Lemma spawn_await_store r events st :
  same_store st.2 (spawn_await r events st).2.
Proof.
  revert st. induction events as [|e events IH]; intros st; [done|].
  assert (Hstep : same_store st.2 (spawn_await r events (spawn_step r e st)).2).
  { destruct (IH (spawn_step r e st)) as [Hh Hl].
    split; [by rewrite Hh, spawn_step_heap | by rewrite Hl, spawn_step_launches]. }
  destruct e; try done; simpl.
  - destruct (signal st.2); simpl;
      (split; [by rewrite cleanup_heap | by rewrite cleanup_launches]).
  - split; [by rewrite cleanup_heap | by rewrite cleanup_launches].
Qed.

Lemma exec_await_store r events w : same_store w (exec_await r events w).2.
Proof.
  revert w. induction events as [|e events IH]; intros w; [done|].
  assert (Hstep : same_store w (exec_await r events (exec_step r e w)).2).
  { destruct (IH (exec_step r e w)) as [Hh Hl].
    split; [by rewrite Hh, exec_step_heap | by rewrite Hl, exec_step_launches]. }
  destruct e; try done; simpl.
  - destruct (signal w); simpl;
      (split; [by rewrite cleanup_heap | by rewrite cleanup_launches]).
  - split; [by rewrite cleanup_heap | by rewrite cleanup_launches].
Qed.

Lemma await_store a events w : same_store w (await a events w).2.
Proof.
  destruct a as [r|r]; simpl.
  - apply (spawn_await_store r events (no_output, w)).
  - apply exec_await_store.
Qed.

(** C10. Neither [spawn] nor [exec] changes the caller's options object:
    whatever the host and the events do, and whether the call resolves,
    rejects or stays pending, the object the caller passed holds afterwards
    exactly the properties it held before. *)
Theorem caller_options_untouched H command args l events w o :
  heap w !! l = Some o ->
  heap (spawn H command args l events w).2 !! l = Some o /\
  heap (exec H command l events w).2 !! l = Some o.
Proof.
  intros Hl. split.
  - pose proof (spawn_launch_spec H command args l w o Hl) as Hspec.
    unfold wp in Hspec. unfold spawn.
    destruct (spawn_launch H command args l w) as [[v|r] w1]; simpl in *;
      destruct Hspec as (Hframe & _).
    + by apply Hframe.
    + destruct (spawn_await_store r events (no_output, w1)) as [Hh _].
      rewrite Hh. by apply Hframe.
  - pose proof (exec_launch_spec H command l w o Hl) as Hspec.
    unfold wp in Hspec. unfold exec.
    destruct (exec_launch H command l w) as [[v|a] w1]; simpl in *;
      destruct Hspec as (Hframe & _).
    + by apply Hframe.
    + destruct (await_store a events w1) as [Hh _].
      rewrite Hh. by apply Hframe.
Qed.

(** C9, as the code has it. The object handed to the process host by
    [spawn] is the caller's options without [timeout], [maxBuffer],
    [encoding] and [input], and with every other property as the caller set
    it; [signal] is among those passed on. *)
Theorem host_receives_options H command args l events w o :
  heap w !! l = Some o ->
  exists handed,
    launches (spawn H command args l events w).2 = launches w ++ [(command, args, handed)] /\
    (forall k, k ∈ ["timeout"; "maxBuffer"; "encoding"; "input"] -> handed !! k = None) /\
    (forall k, k ∉ ["timeout"; "maxBuffer"; "encoding"; "input"] -> handed !! k = o !! k) /\
    handed !! "signal" = o !! "signal".
Proof.
  intros Hl. exists (host_options o). split_and!.
  - pose proof (spawn_launch_spec H command args l w o Hl) as Hspec.
    unfold wp in Hspec. unfold spawn.
    destruct (spawn_launch H command args l w) as [[v|r] w1]; simpl in *;
      destruct Hspec as (_ & Hlaunches & _); [done|].
    destruct (spawn_await_store r events (no_output, w1)) as [_ Hlg].
    by rewrite Hlg.
  - intros k Hk. unfold host_options.
    rewrite !elem_of_cons, elem_of_nil in Hk.
    destruct Hk as [->|[->|[->|[->|[]]]]];
      repeat (rewrite lookup_delete_eq || rewrite lookup_delete_ne by done); done.
  - intros k Hk. unfold host_options.
    rewrite !not_elem_of_cons in Hk. destruct Hk as (? & ? & ? & ? & _).
    by rewrite !lookup_delete_ne.
  - unfold host_options. by rewrite !lookup_delete_ne.
Qed.

(** ** The input feeder *)

(** C8. The input feeder never throws past its own boundary, whatever the
    payload and whatever the caller's source stream does.  With a child
    input stream:
    - a string or a [Buffer] is written to it and it is closed; nothing is
      triggered;
    - a stream is piped into it and the two listeners are registered, when
      none of these three calls throws;
    - when the [k]-th of them throws [err], the feeder closes the child's
      input stream, its last stream call, and then triggers cancellation
      with reason "Failed to write to stdin: <message>";
    - an error of the source stream, once the feeder has registered its
      listener, triggers cancellation with reason
      "Input stream error: <message>". *)
Theorem input_feeder_failures c input w :
  (handleInput c input w).1 = inr tt /\
  (has_stdin c = true ->
   (forall s, input = VStr s ->
      (handleInput c input w).2 =
        set_stream (oracle w) (calls w ++ [CallWrite (Buffer_from s); CallEnd]) w) /\
   (forall b, input = VBuf b ->
      (handleInput c input w).2 =
        set_stream (oracle w) (calls w ++ [CallWrite b; CallEnd]) w) /\
   (forall src, input = VStream src ->
      Forall (fun answer => answer = None) (take 3 (oracle w)) ->
      (handleInput c input w).2 =
        set_listeners true true (abortListener w) (kills w)
          (set_stream (drop 3 (oracle w)) (calls w ++ delivery input) w)) /\
   (forall src k err tl, input = VStream src ->
      (k < 3)%nat ->
      oracle w = replicate k None ++ Some err :: tl ->
      exists w1,
        (handleInput c input w).2 = controller_abort (stdin_failure err) w1 /\
        calls w1 = calls w ++ take (S k) (delivery input) ++ [CallEnd] /\
        signal w1 = signal w /\
        controllerSignal w1 = controllerSignal w /\
        (signal w = None -> controllerSignal w = None ->
         signal (controller_abort (stdin_failure err) w1) =
           Some (VErr ("Failed to write to stdin: " +:+
                       match err with VErr m => m | _ => js_String err end))))) /\
  (forall r acc m,
     errorListener w = true ->
     (spawn_step r (InputError (VErr m)) (acc, w)).2 =
       controller_abort (VErr ("Input stream error: " +:+ m))
         (set_listeners (endListener w) false (abortListener w) (kills w) w) /\
     (signal w = None -> controllerSignal w = None ->
      signal (spawn_step r (InputError (VErr m)) (acc, w)).2 =
        Some (VErr ("Input stream error: " +:+ m)))).
Proof.
  destruct w as [h orc cl cs ctl any ta el erl al kl ln]; simpl.
  split_and!.
  - unfold handleInput. destruct (bool_decide _ || negb _); [done|].
    destruct input; try done.
    by destruct orc as [|[a0|] [|[a1|] [|[a2|] orc]]].
  - intros Hstdin.
    assert (Hguard : forall v, v <> VUndefined ->
              bool_decide (v = VUndefined) || negb (has_stdin c) = false).
    { intros v Hv. rewrite Hstdin. by case_bool_decide. }
    split_and!.
    + intros s ->. unfold handleInput. rewrite Hguard by done.
      simpl. by rewrite <- app_assoc.
    + intros b ->. unfold handleInput. rewrite Hguard by done.
      simpl. by rewrite <- app_assoc.
    + intros src -> Hok. unfold handleInput. rewrite Hguard by done.
      destruct orc as [|a0 [|a1 [|a2 orc]]]; simpl in Hok;
        repeat match goal with
               | H : Forall _ (_ :: _) |- _ =>
                   apply Forall_cons in H; destruct H as [-> H]
               end;
        simpl; by rewrite <- ?app_assoc.
    + intros src k err tl -> Hk ->. unfold handleInput. rewrite Hguard by done.
      destruct k as [|[|[|k]]]; try lia; simpl;
        (eexists; split; [reflexivity|]; simpl; rewrite <- ?app_assoc; simpl;
         split_and!; try done;
         intros Hs Hc; unfold signal, controller_abort, dispatch_abort in *;
         simpl in *; subst; destruct any as [[?|]|]; simpl in *; try done;
         by destruct al).
  - intros r acc m ->. split; [done|].
    intros Hs Hc. unfold signal, controller_abort, dispatch_abort in *.
    simpl in *. subst. destruct any as [[?|]|]; simpl in *; try done;
      by destruct al.
Qed.

(** ** Shape of the results *)

Lemma createResult_shape code dc dl ec el enc proc :
  one_variant (createResult code dc dl ec el enc proc).
Proof.
  unfold createResult, one_variant.
  destruct code as [[| |]|]; simpl; (by left; eauto) || (by right; eauto).
Qed.

Lemma createErrorResult_shape thrown sig proc :
  one_variant (createErrorResult thrown sig proc).
Proof. rewrite createErrorResult_message. right. simpl. eauto. Qed.

(** Every result a launched call resolves to is exactly one variant. *)
Lemma resolved_one_variant a events w res :
  (await a events w).1 = Resolved res -> one_variant res.
Proof.
  destruct a as [r|r]; simpl.
  - generalize (no_output, w). induction events as [|e events IH]; intros st; [done|].
    destruct e; simpl; try apply IH.
    + destruct (signal st.2); intros [= <-];
        [apply createErrorResult_shape | apply createResult_shape].
    + intros [= <-]. apply createErrorResult_shape.
  - revert w. induction events as [|e events IH]; intros w; [done|].
    destruct e; simpl; try apply IH.
    + destruct (signal w); intros [= <-]; [apply createErrorResult_shape|].
      left. simpl. eauto.
    + intros [= <-]. apply createErrorResult_shape.
Qed.

(** The error code of a failure is a number unless the child was ended by a
    signal that the coordinator did not send. *)
Lemma error_code_numeric a events w res err :
  (await a events w).1 = Resolved res ->
  error res = Some err ->
  Close None ∉ events ->
  is_Some (code err).
Proof.
  destruct a as [r|r]; simpl.
  - generalize (no_output, w). induction events as [|e events IH]; intros st; [done|].
    intros Hres Herr Hnot. apply not_elem_of_cons in Hnot as [Hne Hnot].
    destruct e; simpl in Hres; try (by eapply IH).
    + destruct (signal st.2); injection Hres as <-.
      * rewrite createErrorResult_message in Herr. injection Herr as <-. by eexists.
      * unfold createResult in Herr.
        destruct code0 as [[| |]|]; simpl in Herr; try done;
          injection Herr as <-; by eexists.
    + injection Hres as <-.
      rewrite createErrorResult_message in Herr. injection Herr as <-. by eexists.
  - revert w. induction events as [|e events IH]; intros w; [done|].
    intros Hres Herr Hnot. apply not_elem_of_cons in Hnot as [Hne Hnot].
    destruct e; simpl in Hres; try (by eapply IH).
    + destruct (signal w); injection Hres as <-; [|done].
      rewrite createErrorResult_message in Herr. injection Herr as <-. by eexists.
    + injection Hres as <-.
      rewrite createErrorResult_message in Herr. injection Herr as <-. by eexists.
Qed.

(** ** What crosses the public boundary *)

(** Once launched, a call never rejects, and it resolves as soon as a
    settling event arrives. *)
Lemma launched_never_rejects a events w thrown :
  (await a events w).1 <> Rejected thrown.
Proof.
  destruct a as [r|r]; simpl.
  - generalize (no_output, w). induction events as [|e events IH]; intros st; [done|].
    destruct e; simpl; try apply IH; try done. by destruct (signal st.2).
  - revert w. induction events as [|e events IH]; intros w; [done|].
    destruct e; simpl; try apply IH; try done. by destruct (signal w).
Qed.

Lemma launched_resolves a events w :
  Exists (fun e => settles a e = true) events ->
  exists res, (await a events w).1 = Resolved res.
Proof.
  destruct a as [r|r]; simpl.
  - generalize (no_output, w). induction events as [|e events IH]; intros st Hex.
    { by apply Exists_nil in Hex. }
    destruct e; simpl in *;
      try (apply IH; apply Exists_cons in Hex as [?|?]; done);
      try destruct (signal st.2); eauto.
  - revert w. induction events as [|e events IH]; intros w Hex.
    { by apply Exists_nil in Hex. }
    destruct e; simpl in *;
      try (apply IH; apply Exists_cons in Hex as [?|?]; done);
      try destruct (signal w); eauto.
Qed.

(** A call rejects exactly when its synchronous part throws. *)
Lemma spawn_rejects_iff H command args l events w thrown :
  (spawn H command args l events w).1 = Rejected thrown <->
  (spawn_launch H command args l w).1 = inl thrown.
Proof.
  unfold spawn. destruct (spawn_launch H command args l w) as [[v|r] w1]; simpl.
  - split; congruence.
  - split; [|done]. intros Hr.
    by apply (launched_never_rejects (AwaitClose r)) in Hr.
Qed.

Lemma exec_rejects_iff H command l events w thrown :
  (exec H command l events w).1 = Rejected thrown <->
  (exec_launch H command l w).1 = inl thrown.
Proof.
  unfold exec. destruct (exec_launch H command l w) as [[v|a] w1]; simpl.
  - split; congruence.
  - split; [|done]. intros Hr. by apply launched_never_rejects in Hr.
Qed.

(** ** The output ceiling *)

(** The two ['data'] handlers compare different sums with the ceiling: the
    error stream's the combined count, the output stream's its own count. *)
Lemma ceiling_checks r chunk a w :
  (on_stdout r chunk (a, w)).2 =
    (if exceeds (dataLength a + Z.of_nat (length chunk)) (maxBuffer r)
     then controller_abort (maxBuffer_reason (maxBuffer r)) w else w) /\
  (on_stderr r (ChunkBuffer chunk) (a, w)).2 =
    (if exceeds (dataLength a + (errorLength a + Z.of_nat (length chunk))) (maxBuffer r)
     then controller_abort (maxBuffer_reason (maxBuffer r)) w else w).
Proof. unfold on_stdout, on_stderr. simpl. split; by destruct (exceeds _ _). Qed.

(** * Further properties of the coordinator *)

(** *** What the synchronous part leaves behind *)

(** The world after [handleInput]: stream bookkeeping and listener flags
    changed, and then possibly one [abort] of the controller. *)
Lemma handleInput_shape c input w :
  exists o cl el x,
    let w' := set_listeners el x (abortListener w) (kills w) (set_stream o cl w) in
    (handleInput c input w).2 = w' \/
    exists err, (handleInput c input w).2 = controller_abort (stdin_failure err) w'.
Proof.
  destruct w as [h orc cl cs ctl any ta el erl al k ln].
  unfold handleInput.
  destruct (bool_decide _ || negb _).
  { exists orc, cl, el, erl. by left. }
  unfold try_catch, bind, host_call, modify; cbn [fst snd].
  destruct input;
    try (exists orc, cl, el, erl; by left);
    destruct orc as [|[a0|] [|[a1|] [|[a2|] [|[a3|] orc]]]];
    do 4 eexists; cbv zeta; unfold set_listeners, set_stream;
    cbn -[controller_abort];
    ((left; reflexivity) || (right; eexists; reflexivity)).
Qed.

Lemma handleInput_undefined c w : handleInput c VUndefined w = (inr tt, w).
Proof. unfold handleInput. by rewrite bool_decide_eq_true_2. Qed.


(** *** The controls after the synchronous part *)

(** The controls of the world once [spawn] has been launched from a world
    whose abort listener is not yet registered. *)
Lemma spawn_launch_control_wp H command args l w o :
  heap w !! l = Some o ->
  abortListener w = false ->
  wp (spawn_launch H command args l)
     (fun res w1 =>
        match res with
        | inl _ => True
        | inr r =>
            abortListener w1 = true /\
            kills w1 = kills w /\
            timerArmed w1 = truthy (get o "timeout") /\
            callerSignal w1 = callerSignal w /\
            (anySignal w1 = None <-> truthy (get o "signal") = false) /\
            (anySignal w1 = Some None -> callerSignal w1 = None) /\
            (forall reason, truthy (get o "signal") = true ->
                            callerSignal w = Some reason -> signal w1 = Some reason) /\
            (get o "input" = VUndefined ->
             calls w1 = calls w /\ endListener w1 = endListener w /\
             controllerSignal w1 = None)
        end) w.
Proof.
  intros Hl Hal. pose proof (fun l0 => fresh_ref_ne l0 w) as Hne.
  unfold wp, spawn_launch, setupAbortHandling, spread, alloc, delete_prop,
    childProcess_spawn, bind, gets, modify, ret, deref.
  destruct w as [h orc cl cs ctl any ta el erl al k ln]. simpl in *. subst al.
  rewrite Hl. simpl.
  rewrite !alter_insert_eq, lookup_insert_eq. simpl.
  destruct (host_spawn H command args _) as [[v|c] o']; simpl; [done|].
  rewrite !lookup_insert_ne by eauto. rewrite Hl. simpl.
  match goal with
  | |- context [handleInput ?c ?i ?W] =>
      pose proof (handleInput_shape c i W) as (o1 & cl1 & e1 & x1 & Hshape);
      pose proof (handleInput_undefined c W) as Hundef;
      destruct (handleInput c i W) as [[v|[]] w2] eqn:Hrun
  end; [done|].
  cbn [fst snd] in *.
  assert (Hno : get o "input" = VUndefined ->
                calls w2 = cl /\ endListener w2 = el /\ controllerSignal w2 = None).
  { intros Hin. rewrite Hin, Hundef in Hrun. by injection Hrun as <-. }
  clear Hrun Hundef.
  cut (kills w2 = k /\
       timerArmed w2 = truthy (get o "timeout") /\
       callerSignal w2 = cs /\
       (anySignal w2 = None <-> truthy (get o "signal") = false) /\
       (anySignal w2 = Some None -> callerSignal w2 = None) /\
       (forall reason, truthy (get o "signal") = true -> cs = Some reason ->
                       signal w2 = Some reason)).
  { intros (? & ? & ? & ? & ? & ?). simpl. by split_and!. }
  clear Hno.
  destruct Hshape as [->|[err ->]].
  - simpl. split_and!; try done.
    + by destruct (truthy (get o "signal")).
    + destruct (truthy (get o "signal")); [|done]. by intros [= ->].
    + intros reason Hsig ->. unfold signal. simpl. by rewrite Hsig.
  - unfold controller_abort, dispatch_abort, signal. simpl.
    destruct (truthy (get o "signal")), cs; simpl; by split_and!.
Qed.

Lemma spawn_launch_control H command args l w o r w1 :
  heap w !! l = Some o ->
  abortListener w = false ->
  spawn_launch H command args l w = (inr r, w1) ->
  abortListener w1 = true /\
  kills w1 = kills w /\
  timerArmed w1 = truthy (get o "timeout") /\
  callerSignal w1 = callerSignal w /\
  (anySignal w1 = None <-> truthy (get o "signal") = false) /\
  (anySignal w1 = Some None -> callerSignal w1 = None) /\
  (forall reason, truthy (get o "signal") = true -> callerSignal w = Some reason ->
                  signal w1 = Some reason) /\
  (get o "input" = VUndefined ->
   calls w1 = calls w /\ endListener w1 = endListener w /\
   controllerSignal w1 = None).
Proof.
  intros Hl Hal Hlaunch.
  pose proof (spawn_launch_control_wp H command args l w o Hl Hal) as Hwp.
  unfold wp in Hwp. by rewrite Hlaunch in Hwp.
Qed.

Lemma exec_launch_control_wp H command l w o :
  heap w !! l = Some o ->
  abortListener w = false ->
  wp (exec_launch H command l)
     (fun res w1 =>
        match res with
        | inl _ => True
        | inr a =>
            abortListener w1 = true /\
            kills w1 = kills w /\
            timerArmed w1 = truthy (get o "timeout") /\
            callerSignal w1 = callerSignal w /\
            (anySignal w1 = None <-> truthy (get o "signal") = false) /\
            (anySignal w1 = Some None -> callerSignal w1 = None) /\
            (forall reason, truthy (get o "signal") = true ->
                 callerSignal w = Some reason -> signal w1 = Some reason) /\
            match a with
            | AwaitExec _ =>
                get o "input" = VUndefined /\ calls w1 = calls w /\
                controllerSignal w1 = None
            | AwaitClose _ => get o "input" <> VUndefined
            end
        end) w.
Proof.
  intros Hl Hal. pose proof (fun l0 => fresh_ref_ne l0 w) as Hne.
  unfold exec_launch.
  do 3 (apply wp_bind, wp_gets).
  rewrite (deref_lookup _ _ _ Hl).
  case_bool_decide as Hinput; simpl.
  - unfold wp, setupAbortHandling, spread, alloc, delete_prop, set_prop,
      execAsync, bind, gets, modify, ret, deref.
    destruct w as [h orc cl cs ctl any ta el erl al k ln]. simpl in *. subst al.
    rewrite Hl. simpl.
    rewrite !alter_insert_eq, lookup_insert_eq. simpl.
    destruct (host_exec H command _) as [[v|c] o']; simpl; [done|].
    unfold signal. simpl.
    by destruct (truthy (get o "signal")), cs; simpl; split_and!.
  - unfold spread, alloc, set_prop.
    apply wp_bind. apply wp_bind, wp_gets. unfold wp at 1. simpl.
    apply wp_bind, wp_modify. simpl.
    rewrite alter_insert_eq, (deref_lookup _ _ _ Hl).
    set (l' := fresh (dom (heap w))) in *.
    set (w2 := set_heap _ _).
    assert (Hl2 : heap w2 !! l' = Some (<["shell" := VBool true]> o)).
    { unfold w2. simpl. by rewrite lookup_insert_eq. }
    apply wp_bind.
    eapply wp_mono; [by apply (spawn_launch_control_wp _ _ _ _ _ _ Hl2)|].
    intros [v|r] w3 Hr; simpl; [done|]. apply wp_ret.
    unfold get in *. rewrite !lookup_insert_ne in Hr by done.
    destruct Hr as (? & ? & ? & ? & ? & ? & ? & _). by split_and!.
Qed.

Lemma exec_launch_control H command l w o a w1 :
  heap w !! l = Some o ->
  abortListener w = false ->
  exec_launch H command l w = (inr a, w1) ->
  abortListener w1 = true /\
  kills w1 = kills w /\
  timerArmed w1 = truthy (get o "timeout") /\
  callerSignal w1 = callerSignal w /\
  (anySignal w1 = None <-> truthy (get o "signal") = false) /\
  (anySignal w1 = Some None -> callerSignal w1 = None) /\
  (forall reason, truthy (get o "signal") = true -> callerSignal w = Some reason ->
                  signal w1 = Some reason) /\
  match a with
  | AwaitExec _ =>
      get o "input" = VUndefined /\ calls w1 = calls w /\ controllerSignal w1 = None
  | AwaitClose _ => get o "input" <> VUndefined
  end.
Proof.
  intros Hl Hal Hlaunch.
  pose proof (exec_launch_control_wp H command l w o Hl Hal) as Hwp.
  unfold wp in Hwp. by rewrite Hlaunch in Hwp.
Qed.

(** The timer after the synchronous part, however it ends: pending exactly
    when [options.timeout] is truthy. *)
Lemma spawn_launch_timer H command args l w o :
  heap w !! l = Some o ->
  abortListener w = false ->
  timerArmed (spawn_launch H command args l w).2 = truthy (get o "timeout").
Proof.
  intros Hl Hal.
  unfold spawn_launch, setupAbortHandling, spread, alloc, delete_prop,
    childProcess_spawn, bind, gets, modify, ret, deref.
  destruct w as [h orc cl cs ctl any ta el erl al k ln]. simpl in *. subst al.
  rewrite Hl. simpl.
  rewrite !alter_insert_eq, lookup_insert_eq. simpl.
  destruct (host_spawn H command args _) as [[v|c] o']; simpl; [done|].
  match goal with
  | |- context [handleInput ?c ?i ?W] =>
      pose proof (handleInput_shape c i W) as (o1 & cl1 & e1 & x1 & Hshape);
      destruct (handleInput c i W) as [[v|[]] w2]
  end; simpl in *;
    (destruct Hshape as [->|[err ->]]; [done|];
     unfold controller_abort, dispatch_abort, signal; simpl;
     by destruct (truthy (get o "signal")), cs).
Qed.

Lemma exec_launch_timer H command l w o :
  heap w !! l = Some o ->
  abortListener w = false ->
  timerArmed (exec_launch H command l w).2 = truthy (get o "timeout").
Proof.
  intros Hl Hal.
  unfold exec_launch.
  unfold bind at 1 2 3, gets. simpl.
  rewrite (deref_lookup _ _ _ Hl).
  case_bool_decide as Hinput; simpl.
  - unfold setupAbortHandling, spread, alloc, delete_prop, set_prop,
      execAsync, bind, gets, modify, ret, deref.
    destruct w as [h orc cl cs ctl any ta el erl al k ln]. simpl in *.
    rewrite Hl. simpl.
    rewrite !alter_insert_eq, lookup_insert_eq. simpl.
    by destruct (host_exec H command _) as [[v|c] o'].
  - unfold spread, alloc, set_prop, bind at 1 2 3, gets, modify.
    simpl. rewrite alter_insert_eq, (deref_lookup _ _ _ Hl).
    unfold bind, ret.
    match goal with
    | |- context [spawn_launch ?H ?c ?a ?l' ?W] =>
        pose proof (spawn_launch_timer H c a l' W (<["shell" := VBool true]> o)) as Ht;
        destruct (spawn_launch H c a l' W) as [[v|r] w2]
    end; simpl in *;
      (rewrite Ht; [|by rewrite lookup_insert_eq|done];
       unfold get; by rewrite lookup_insert_ne).
Qed.


(** *** Invariants of the controls *)

(** The timer is only ever switched off. *)
Lemma after_timer_only_cleared (T : Prop) a pre w :
  (timerArmed w = true -> T) -> timerArmed (after a pre w) = true -> T.
Proof.
  apply (after_preserves (fun w => timerArmed w = true -> T)); by controls.
Qed.

Lemma after_timer_off a pre w :
  timerArmed w = false -> timerArmed (after a pre w) = false.
Proof. apply (after_preserves (fun w => timerArmed w = false)); by controls. Qed.

(** While the signal has not fired the abort listener waits; its one run
    requests one termination. *)
Lemma after_kills_live k0 a pre w :
  match signal w with
  | None => abortListener w = true /\ kills w = k0
  | Some _ => abortListener w = false /\ kills w = S k0
  end ->
  match signal (after a pre w) with
  | None => abortListener (after a pre w) = true /\ kills (after a pre w) = k0
  | Some _ => abortListener (after a pre w) = false /\ kills (after a pre w) = S k0
  end.
Proof.
  apply (after_preserves
           (fun w => match signal w with
                     | None => abortListener w = true /\ kills w = k0
                     | Some _ => abortListener w = false /\ kills w = S k0
                     end)); by controls.
Qed.

(** A signal that had fired before the listener was registered never runs
    it. *)
Lemma after_kills_dead k0 a pre w :
  signal w <> None /\ kills w = k0 ->
  signal (after a pre w) <> None /\ kills (after a pre w) = k0.
Proof.
  apply (after_preserves (fun w => signal w <> None /\ kills w = k0)); by controls.
Qed.

(** The combined signal follows the caller's. *)
Lemma after_any_follows a pre w :
  anySignal w <> None /\ (anySignal w = Some None -> callerSignal w = None) ->
  anySignal (after a pre w) <> None /\
  (anySignal (after a pre w) = Some None -> callerSignal (after a pre w) = None).
Proof.
  apply (after_preserves
           (fun w => anySignal w <> None /\
                     (anySignal w = Some None -> callerSignal w = None)));
    by controls.
Qed.


(** ** Results of either runner *)

Lemma resolved_codes a events w res :
  (await a events w).1 = Resolved res ->
  match error res with
  | None => exitCode res = Some 0
  | Some err => code err = exitCode res
  end.
Proof.
  destruct a as [r|r]; simpl.
  - generalize (no_output, w). induction events as [|e events IH]; intros st; [done|].
    destruct e as [b|ch| |er| |re|cd|er|so|er]; simpl; try apply IH.
    + destruct (signal st.2); intros [= <-].
      * by rewrite createErrorResult_message.
      * unfold createResult. by destruct cd as [[| |]|].
    + intros [= <-]. by rewrite createErrorResult_message.
  - revert w. induction events as [|e events IH]; intros w; [done|].
    destruct e; simpl; try apply IH.
    + destruct (signal w); intros [= <-]; [|done].
      by rewrite createErrorResult_message.
    + intros [= <-]. by rewrite createErrorResult_message.
Qed.

(** X1. Whatever the host and the events do, a result that [spawn] or [exec]
    resolves to is exactly one variant: [data] and [dataAsBuffer] present and
    [error] null, or both absent and [error] present. *)
Theorem result_is_one_variant H command args l events w :
  match (spawn H command args l events w).1 with
  | Resolved res => one_variant res
  | _ => True
  end /\
  match (exec H command l events w).1 with
  | Resolved res => one_variant res
  | _ => True
  end.
Proof.
  split.
  - unfold spawn. destruct (spawn_launch H command args l w) as [[v|r] w1]; [done|].
    pose proof (resolved_one_variant (AwaitClose r) events w1) as Hv. simpl in Hv.
    destruct (spawn_await r events (no_output, w1)) as [[|res|] w2]; simpl in *;
      try done; by apply Hv.
  - unfold exec. destruct (exec_launch H command l w) as [[v|a] w1]; [done|].
    pose proof (resolved_one_variant a events w1) as Hv.
    destruct (await a events w1) as [[|res|] w2]; simpl in *;
      try done; by apply Hv.
Qed.

(** X2. The two codes of a result agree: a success carries [code] 0, and a
    failure carries in [code] the very value of [error.code] (the child's
    exit code on a clean nonzero exit, -1 on the abnormal path). *)
Theorem result_codes_agree H command args l events w :
  match (spawn H command args l events w).1 with
  | Resolved res =>
      match error res with
      | None => exitCode res = Some 0
      | Some err => code err = exitCode res
      end
  | _ => True
  end /\
  match (exec H command l events w).1 with
  | Resolved res =>
      match error res with
      | None => exitCode res = Some 0
      | Some err => code err = exitCode res
      end
  | _ => True
  end.
Proof.
  split.
  - unfold spawn. destruct (spawn_launch H command args l w) as [[v|r] w1]; [done|].
    pose proof (resolved_codes (AwaitClose r) events w1) as Hv. simpl in Hv.
    destruct (spawn_await r events (no_output, w1)) as [[|res|] w2]; simpl in *;
      try done; by apply Hv.
  - unfold exec. destruct (exec_launch H command l w) as [[v|a] w1]; [done|].
    pose proof (resolved_codes a events w1) as Hv.
    destruct (await a events w1) as [[|res|] w2]; simpl in *;
      try done; by apply Hv.
Qed.

(** X3. A call is rejected exactly when its synchronous part throws, and
    then with the thrown value; no event of the awaiting part ever rejects
    it. *)
Theorem rejects_only_at_launch H command args l events w thrown :
  ((spawn H command args l events w).1 = Rejected thrown <->
   (spawn_launch H command args l w).1 = inl thrown) /\
  ((exec H command l events w).1 = Rejected thrown <->
   (exec_launch H command l w).1 = inl thrown).
Proof. split; [apply spawn_rejects_iff | apply exec_rejects_iff]. Qed.



(** ** [exec] and its two hosts *)

Lemma exec_launch_kind H command l w o a w1 :
  heap w !! l = Some o ->
  exec_launch H command l w = (inr a, w1) ->
  match a with
  | AwaitExec _ => get o "input" = VUndefined
  | AwaitClose _ => get o "input" <> VUndefined
  end.
Proof.
  intros Hl Hlaunch. unfold exec_launch in Hlaunch.
  unfold bind at 1 2 3, gets in Hlaunch. simpl in Hlaunch.
  rewrite (deref_lookup _ _ _ Hl) in Hlaunch.
  case_bool_decide as Hinput; simpl in Hlaunch.
  - unfold setupAbortHandling, spread, alloc, delete_prop, set_prop,
      execAsync, bind, gets, modify, ret, deref in Hlaunch.
    simpl in Hlaunch.
    destruct (host_exec H command _) as [[v|c] o']; simpl in Hlaunch; [done|].
    by injection Hlaunch as <- <-.
  - unfold bind, ret in Hlaunch.
    repeat match type of Hlaunch with
           | context [match ?m with _ => _ end] =>
               destruct m as [[?|?] ?]; simpl in Hlaunch; try done
           end.
    by injection Hlaunch as <- <-.
Qed.

(** X4. [exec] without an input: when the host's promise resolves with
    [stdout] and the signal has not fired, the call resolves to the success
    variant with [code] 0, [dataAsBuffer] the host's bytes and [data] their
    decoding in the configured encoding (UTF-8 by default). *)
Theorem exec_clean_success H command l w o a w1 pre stdout rest :
  heap w !! l = Some o ->
  get o "input" = VUndefined ->
  exec_launch H command l w = (inr a, w1) ->
  Forall (fun e => settles_exec e = false) pre ->
  signal (exec_steps (running a) pre w1) = None ->
  (exec H command l (pre ++ ExecResolved stdout :: rest) w).1 =
    Resolved {| data := Some (Buffer_toString
                                (as_string (js_or (get o "encoding") (VStr "utf8")))
                                stdout);
                dataAsBuffer := Some stdout;
                error := None;
                exitCode := Some 0;
                process := child (running a) |}.
Proof.
  intros Hl Hin Hlaunch Hpre Hs.
  pose proof (exec_launch_kind H command l w o a w1 Hl Hlaunch) as Hkind.
  pose proof (exec_launch_spec H command l w o Hl) as Hspec.
  unfold wp in Hspec. rewrite Hlaunch in Hspec. simpl in Hspec.
  destruct Hspec as (_ & _ & _ & Henc & _).
  unfold exec. rewrite Hlaunch.
  destruct a as [r|r]; simpl in *; [done|].
  rewrite exec_await_app by done. simpl. by rewrite Hs, Henc.
Qed.


Lemma exec_launch_handed H command l w o :
  heap w !! l = Some o ->
  launches (exec_launch H command l w).2 =
    launches w ++
      [if bool_decide (get o "input" = VUndefined)
       then (command, [], exec_options o)
       else ("sh", ["-c"; command], host_options (<["shell" := VBool true]> o))].
Proof.
  intros Hl. unfold exec_launch.
  unfold bind at 1 2 3, gets. simpl.
  rewrite (deref_lookup _ _ _ Hl).
  case_bool_decide as Hinput; simpl.
  - unfold setupAbortHandling, spread, alloc, delete_prop, set_prop,
      execAsync, bind, gets, modify, ret, deref.
    destruct w as [h orc cl cs ctl any ta el erl al k ln]. simpl in *.
    rewrite Hl. simpl.
    rewrite !alter_insert_eq, lookup_insert_eq. simpl.
    by destruct (host_exec H command _) as [[v|c] o'].
  - unfold spread, alloc, set_prop, bind at 1 2 3, gets, modify.
    simpl. rewrite alter_insert_eq, (deref_lookup _ _ _ Hl).
    unfold bind, ret.
    match goal with
    | |- context [spawn_launch ?H ?c ?a ?l' ?W] =>
        pose proof (spawn_launch_spec H c a l' W (<["shell" := VBool true]> o)) as Hs;
        unfold wp in Hs;
        destruct (spawn_launch H c a l' W) as [[v|r] w2]
    end; simpl in *;
      (destruct Hs as (_ & -> & _); [by rewrite lookup_insert_eq|done]).
Qed.

(** X5. [exec] with an input starts, through [spawn], the program [sh] with
    the arguments [-c] and the command line; the host is handed the caller's
    options with [shell] set to true and without [timeout], [maxBuffer],
    [encoding] and [input], every other property as the caller set it. *)
Theorem exec_with_input_runs_sh H command l events w o :
  heap w !! l = Some o ->
  get o "input" <> VUndefined ->
  exists handed,
    launches (exec H command l events w).2 =
      launches w ++ [("sh", ["-c"; command], handed)] /\
    handed !! "shell" = Some (VBool true) /\
    (forall k, k ∈ ["timeout"; "maxBuffer"; "encoding"; "input"] -> handed !! k = None) /\
    (forall k, k ∉ ["timeout"; "maxBuffer"; "encoding"; "input"; "shell"] ->
               handed !! k = o !! k).
Proof.
  intros Hl Hin. exists (host_options (<["shell" := VBool true]> o)). split_and!.
  - pose proof (exec_launch_handed H command l w o Hl) as Hh.
    rewrite bool_decide_eq_false_2 in Hh by done.
    unfold exec. destruct (exec_launch H command l w) as [[v|a] w1]; [done|].
    destruct (await_store a events w1) as [_ Hlg]. by rewrite Hlg.
  - unfold host_options. rewrite !lookup_delete_ne by done. apply lookup_insert_eq.
  - intros k Hk. unfold host_options.
    rewrite !elem_of_cons, elem_of_nil in Hk.
    destruct Hk as [->|[->|[->|[->|[]]]]];
      repeat (rewrite lookup_delete_eq || rewrite lookup_delete_ne by done); done.
  - intros k Hk. unfold host_options.
    rewrite !not_elem_of_cons in Hk. destruct Hk as (? & ? & ? & ? & ? & _).
    by rewrite !lookup_delete_ne, lookup_insert_ne.
Qed.

(** X6. [exec] without an input hands the buffering host the command line
    and the caller's options with [encoding] forced to "buffer", [maxBuffer]
    set to the configured ceiling (80 MiB when [options.maxBuffer] is absent,
    zero or NaN), [timeout] and [signal] removed, and every other property
    as the caller set it. *)
Theorem exec_without_input_options H command l events w o :
  heap w !! l = Some o ->
  get o "input" = VUndefined ->
  exists handed,
    launches (exec H command l events w).2 = launches w ++ [(command, [], handed)] /\
    handed !! "encoding" = Some (VStr "buffer") /\
    handed !! "maxBuffer" = Some (js_or (get o "maxBuffer") (VNum 83886080)) /\
    handed !! "timeout" = None /\
    handed !! "signal" = None /\
    (forall k, k ∉ ["encoding"; "maxBuffer"; "timeout"; "signal"] ->
               handed !! k = o !! k).
Proof.
  intros Hl Hin. exists (exec_options o). split_and!.
  - pose proof (exec_launch_handed H command l w o Hl) as Hh.
    rewrite bool_decide_eq_true_2 in Hh by done.
    unfold exec. destruct (exec_launch H command l w) as [[v|a] w1]; [done|].
    destruct (await_store a events w1) as [_ Hlg]. by rewrite Hlg.
  - unfold exec_options.
    by rewrite !lookup_delete_ne, lookup_insert_ne, lookup_insert_eq.
  - unfold exec_options. by rewrite !lookup_delete_ne, lookup_insert_eq.
  - unfold exec_options. by rewrite lookup_delete_ne, lookup_delete_eq.
  - unfold exec_options. by rewrite lookup_delete_eq.
  - intros k Hk. unfold exec_options.
    rewrite !not_elem_of_cons in Hk. destruct Hk as (? & ? & ? & ? & _).
    by rewrite !lookup_delete_ne, !lookup_insert_ne.
Qed.


(** ** The output ceiling, as the handlers enforce it *)

Lemma stdout_bytes_cons c e events :
  stdout_bytes c (e :: events) =
    match e with
    | StdoutData b => if has_stdout c then b else []
    | _ => []
    end ++ stdout_bytes c events.
Proof. unfold stdout_bytes. by destruct (has_stdout c), e. Qed.

Lemma spawn_steps_dataLength r events st :
  dataLength (spawn_steps r events st).1 =
    dataLength st.1 + Z.of_nat (length (stdout_bytes (child r) events)).
Proof.
  revert st. induction events as [|e events IH]; intros st.
  { unfold stdout_bytes. destruct (has_stdout (child r)); simpl; lia. }
  change (spawn_steps r (e :: events) st)
    with (spawn_steps r events (spawn_step r e st)).
  rewrite IH, stdout_bytes_cons, length_app.
  set (n := length (stdout_bytes (child r) events)).
  destruct st as [a w].
  destruct e; simpl; try lia.
  - unfold on_stdout. destruct (has_stdout (child r)); simpl; [|lia].
    destruct (exceeds _ _); simpl; lia.
  - destruct (has_stderr (child r)); simpl; [|lia].
    unfold on_stderr. destruct (exceeds _ _); simpl; lia.
  - destruct (endListener w); simpl; lia.
  - destruct (errorListener w); simpl; lia.
Qed.

Lemma spawn_steps_snoc r pre e st :
  spawn_steps r (pre ++ [e]) st = spawn_step r e (spawn_steps r pre st).
Proof. unfold spawn_steps. by rewrite foldl_app. Qed.

(** A signal fired by the event [e0] decides the result, whatever follows. *)
Lemma fired_result a pre e0 post e rest w m :
  Forall (fun e => settles a e = false) pre ->
  settles a e0 = false ->
  Forall (fun e => settles a e = false) post ->
  settles a e = true ->
  signal (after a (pre ++ [e0]) w) = Some (VErr m) ->
  (await a (pre ++ e0 :: post ++ e :: rest) w).1 =
    Resolved
      {| data := None; dataAsBuffer := None;
         error := Some {| name := "ExecUtilsError"; message := m; code := Some (-1) |};
         exitCode := Some (-1); process := child (running a) |}.
Proof.
  intros Hpre He0 Hpost He Hfired.
  apply (after_app_fired _ _ _ post) in Hfired.
  replace (pre ++ e0 :: post ++ e :: rest) with ((pre ++ e0 :: post) ++ e :: rest)
    by (by rewrite <- app_assoc).
  assert (Hall : Forall (fun e => settles a e = false) (pre ++ e0 :: post)).
  { apply Forall_app. split; [done|]. by constructor. }
  assert (exists thrown, caught (signal (after a (pre ++ e0 :: post) w)) e
                         = Some thrown) as [thrown Hthrown].
  { rewrite Hfired. destruct a, e; simpl in *; try done; eauto. }
  rewrite (await_abnormal a _ e rest w thrown Hall He Hthrown), Hfired.
  by rewrite createErrorResult_fired.
Qed.


(** X8. The ceiling on the output stream is an invariant of a call that has
    not been cancelled: with a ceiling that zero bytes do not exceed, as
    long as the signal has not fired the bytes held from the output stream
    do not exceed it. *)
Theorem stdout_within_ceiling H command args l w o r w1 pre :
  heap w !! l = Some o ->
  spawn_launch H command args l w = (inr r, w1) ->
  exceeds 0 (as_number (js_or (get o "maxBuffer") (VNum 83886080))) = false ->
  signal (after (AwaitClose r) pre w1) = None ->
  exceeds (Z.of_nat (length (stdout_bytes (child r) pre)))
    (as_number (js_or (get o "maxBuffer") (VNum 83886080))) = false.
Proof.
  intros Hl Hlaunch Hpos Hs.
  pose proof (spawn_launch_spec H command args l w o Hl) as Hspec.
  unfold wp in Hspec. rewrite Hlaunch in Hspec. simpl in Hspec.
  destruct Hspec as (_ & _ & Harmed & _ & _ & Hmax & _).
  change (VNum 83886080) with (VNum default_maxBuffer) in *.
  rewrite <- Hmax in *. simpl in Hs. clear Hmax Hlaunch Hl.
  induction pre as [|e pre IH] using rev_ind.
  { unfold stdout_bytes. by destruct (has_stdout (child r)). }
  rewrite spawn_steps_snoc in Hs.
  pose proof (spawn_steps_dataLength r pre (no_output, w1)) as Hlen.
  pose proof (armed_spawn_steps _ r pre (no_output, w1) Harmed) as Ha.
  assert (Hbefore : signal (spawn_steps r pre (no_output, w1)).2 = None).
  { destruct (signal (spawn_steps r pre (no_output, w1)).2) eqn:Hb; [|done].
    by rewrite (spawn_step_fired r e _ _ Hb) in Hs. }
  specialize (IH Hbefore). rewrite stdout_bytes_snoc.
  destruct (spawn_steps r pre (no_output, w1)) as [acc w2]; simpl in Hlen, Ha, Hs, Hbefore.
  destruct e; rewrite ?app_nil_r; try done.
  destruct (has_stdout (child r)) eqn:Hout; rewrite ?app_nil_r; [|done].
  rewrite length_app, Nat2Z.inj_add.
  simpl in Hs. rewrite Hout in Hs. unfold on_stdout in Hs. simpl in Hs.
  rewrite Hlen, Z.add_0_l in Hs.
  destruct (exceeds (_ + _) _); [|done].
  simpl in Hs. rewrite signal_controller_abort in Hs.
  destruct (Ha Hbefore) as [Hc _]. by rewrite Hc, Hbefore in Hs.
Qed.


(** ** Termination requests and the timer *)

Lemma kills_cleanup r w : kills (cleanup r w) = kills w.
Proof. unfold cleanup. by destruct (timeoutId r). Qed.

Lemma settle_split a events :
  Forall (fun e => settles a e = false) events \/
  exists pre e rest,
    events = pre ++ e :: rest /\
    Forall (fun e => settles a e = false) pre /\ settles a e = true.
Proof.
  induction events as [|e events IH]; [by left|].
  destruct (settles a e) eqn:He.
  - right. exists [], e, events. by split_and!.
  - destruct IH as [Hall|(pre & e' & rest & -> & Hpre & He')].
    + left. by constructor.
    + right. exists (e :: pre), e', rest. split_and!; try done. by constructor.
Qed.

(** X9. The coordinator asks the child to terminate at most once per call:
    exactly once when the signal fires while the call is awaiting, and not at
    all when it never fires. *)
Theorem terminates_child_once H command args l w o pre e rest :
  heap w !! l = Some o ->
  abortListener w = false ->
  (forall r w1,
     spawn_launch H command args l w = (inr r, w1) ->
     signal w1 = None ->
     Forall (fun e => settles_spawn e = false) pre ->
     settles_spawn e = true ->
     kills (spawn H command args l (pre ++ e :: rest) w).2 =
       match signal (after (AwaitClose r) pre w1) with
       | Some _ => S (kills w)
       | None => kills w
       end) /\
  (forall a w1,
     exec_launch H command l w = (inr a, w1) ->
     signal w1 = None ->
     Forall (fun e => settles a e = false) pre ->
     settles a e = true ->
     kills (exec H command l (pre ++ e :: rest) w).2 =
       match signal (after a pre w1) with
       | Some _ => S (kills w)
       | None => kills w
       end).
Proof.
  intros Hl Hal.
  assert (Hgeneric : forall a w1,
            abortListener w1 = true -> kills w1 = kills w -> signal w1 = None ->
            Forall (fun e => settles a e = false) pre ->
            settles a e = true ->
            kills (await a (pre ++ e :: rest) w1).2 =
              match signal (after a pre w1) with
              | Some _ => S (kills w)
              | None => kills w
              end).
  { intros a w1 Hlisten Hk Hs Hpre He.
    rewrite await_settled_world, kills_cleanup by done.
    pose proof (after_kills_live (kills w) a pre w1) as Hinv.
    rewrite Hs in Hinv. specialize (Hinv (conj Hlisten Hk)).
    destruct (signal (after a pre w1)); by destruct Hinv. }
  split.
  - intros r w1 Hlaunch Hs Hpre He.
    destruct (spawn_launch_control _ _ _ _ _ _ _ _ Hl Hal Hlaunch) as (Hlisten & Hk & _).
    unfold spawn. rewrite Hlaunch. by apply (Hgeneric (AwaitClose r)).
  - intros a w1 Hlaunch Hs Hpre He.
    destruct (exec_launch_control _ _ _ _ _ _ _ Hl Hal Hlaunch) as (Hlisten & Hk & _).
    unfold exec. rewrite Hlaunch. by apply Hgeneric.
Qed.

(** X10. A caller's signal that is already aborted when the call is made.
    The ['abort'] listener of the coordinator is registered on a signal that
    has fired already and never runs, so the coordinator itself sends the
    child no termination request; when the child settles, the call resolves
    to the failure variant with [code] -1 and the message of the signal's
    reason ("Operation aborted" when the reason is not an [Error]), whatever
    the child did. *)
Theorem aborted_before_call H command args l w o reason pre e rest :
  heap w !! l = Some o ->
  abortListener w = false ->
  truthy (get o "signal") = true ->
  callerSignal w = Some reason ->
  let failure proc :=
    Resolved
      {| data := None; dataAsBuffer := None;
         error := Some {| name := "ExecUtilsError";
                          message := match reason with
                                     | VErr m => m
                                     | _ => "Operation aborted"
                                     end;
                          code := Some (-1) |};
         exitCode := Some (-1); process := proc |} in
  (forall r w1,
     spawn_launch H command args l w = (inr r, w1) ->
     Forall (fun e => settles_spawn e = false) pre ->
     settles_spawn e = true ->
     (spawn H command args l (pre ++ e :: rest) w).1 = failure (child r) /\
     kills (spawn H command args l (pre ++ e :: rest) w).2 = kills w) /\
  (forall a w1,
     exec_launch H command l w = (inr a, w1) ->
     Forall (fun e => settles a e = false) pre ->
     settles a e = true ->
     (exec H command l (pre ++ e :: rest) w).1 = failure (child (running a)) /\
     kills (exec H command l (pre ++ e :: rest) w).2 = kills w).
Proof.
  intros Hl Hal Hsig Hcs failure.
  assert (Hgeneric : forall a w1,
            kills w1 = kills w -> signal w1 = Some reason ->
            Forall (fun e => settles a e = false) pre ->
            settles a e = true ->
            (await a (pre ++ e :: rest) w1).1 = failure (child (running a)) /\
            kills (await a (pre ++ e :: rest) w1).2 = kills w).
  { intros a w1 Hk Hs Hpre He.
    assert (Hafter : signal (after a pre w1) = Some reason).
    { destruct a; simpl; [by apply spawn_steps_fired | by apply exec_steps_fired]. }
    split.
    - assert (exists thrown, caught (signal (after a pre w1)) e = Some thrown)
        as [thrown Hthrown].
      { rewrite Hafter. destruct a, e; simpl in *; try done; eauto. }
      rewrite (await_abnormal a pre e rest w1 thrown Hpre He Hthrown), Hafter.
      rewrite createErrorResult_message. unfold failure. simpl.
      by destruct reason.
    - rewrite await_settled_world, kills_cleanup by done.
      apply (after_kills_dead (kills w) a pre w1). split; [by rewrite Hs|done]. }
  split.
  - intros r w1 Hlaunch Hpre He.
    destruct (spawn_launch_control _ _ _ _ _ _ _ _ Hl Hal Hlaunch)
      as (_ & Hk & _ & _ & _ & _ & Hfired & _).
    unfold spawn. rewrite Hlaunch. apply (Hgeneric (AwaitClose r)); auto.
  - intros a w1 Hlaunch Hpre He.
    destruct (exec_launch_control _ _ _ _ _ _ _ Hl Hal Hlaunch)
      as (_ & Hk & _ & _ & _ & _ & Hfired & _).
    unfold exec. rewrite Hlaunch. apply Hgeneric; auto.
Qed.

(** X11. A call that resolves has released its timer: in the world it
    leaves, no timeout is pending. *)
Theorem timer_released_on_settle H command args l events w o :
  heap w !! l = Some o ->
  abortListener w = false ->
  match spawn H command args l events w with
  | (Resolved _, w') => timerArmed w' = false
  | _ => True
  end /\
  match exec H command l events w with
  | (Resolved _, w') => timerArmed w' = false
  | _ => True
  end.
Proof.
  intros Hl Hal.
  assert (Hgeneric : forall a w1,
            timerArmed w1 = timeoutId (running a) ->
            match await a events w1 with
            | (Resolved _, w') => timerArmed w' = false
            | _ => True
            end).
  { intros a w1 Ht.
    destruct (settle_split a events) as [Hall|(pre & e & rest & -> & Hpre & He)].
    { by rewrite await_pending. }
    pose proof (await_settled_world a pre e rest w1 Hpre He) as Hw.
    destruct (await a (pre ++ e :: rest) w1) as [[|res|] w2]; simpl in *; try done.
    subst w2. unfold cleanup.
    destruct (timeoutId (running a)); [done|]. by apply after_timer_off. }
  split.
  - pose proof (spawn_launch_timer H command args l w o Hl Hal) as Ht.
    pose proof (spawn_launch_spec H command args l w o Hl) as Hspec.
    unfold wp in Hspec. unfold spawn.
    destruct (spawn_launch H command args l w) as [[v|r] w1]; [done|].
    simpl in *. destruct Hspec as (_ & _ & _ & _ & _ & _ & Hid).
    apply (Hgeneric (AwaitClose r)). simpl. by rewrite Ht, Hid.
  - pose proof (exec_launch_timer H command l w o Hl Hal) as Ht.
    pose proof (exec_launch_spec H command l w o Hl) as Hspec.
    unfold wp in Hspec. unfold exec.
    destruct (exec_launch H command l w) as [[v|a] w1]; [done|].
    simpl in *. destruct Hspec as (_ & _ & _ & _ & Hid).
    apply Hgeneric. by rewrite Ht, Hid.
Qed.

(** X12. A call that is rejected has not released its timer: when the
    synchronous part throws, after [setupAbortHandling] armed the timer, the
    timeout stays pending in the world the call leaves. *)
Theorem timer_pending_after_rejection H command args l events w o :
  heap w !! l = Some o ->
  abortListener w = false ->
  match spawn H command args l events w with
  | (Rejected _, w') => timerArmed w' = truthy (get o "timeout")
  | _ => True
  end /\
  match exec H command l events w with
  | (Rejected _, w') => timerArmed w' = truthy (get o "timeout")
  | _ => True
  end.
Proof.
  intros Hl Hal. split.
  - pose proof (spawn_launch_timer H command args l w o Hl Hal) as Ht.
    pose proof (launched_never_rejects) as Hnever.
    unfold spawn. destruct (spawn_launch H command args l w) as [[v|r] w1]; [done|].
    specialize (Hnever (AwaitClose r) events w1). simpl in Hnever.
    destruct (spawn_await r events (no_output, w1)) as [[|res|thrown] w2]; try done.
    by destruct (Hnever thrown).
  - pose proof (exec_launch_timer H command l w o Hl Hal) as Ht.
    pose proof (launched_never_rejects) as Hnever.
    unfold exec. destruct (exec_launch H command l w) as [[v|a] w1]; [done|].
    specialize (Hnever a events w1).
    destruct (await a events w1) as [[|res|thrown] w2]; try done.
    by destruct (Hnever thrown).
Qed.


(** ** The child's input stream when no input is given *)

Lemma controller_abort_stream reason w :
  calls (controller_abort reason w) = calls w /\
  endListener (controller_abort reason w) = endListener w.
Proof. by controls. Qed.

Lemma caller_abort_stream reason w :
  calls (caller_abort reason w) = calls w /\
  endListener (caller_abort reason w) = endListener w.
Proof. by controls. Qed.

Lemma spawn_step_stream r e st :
  endListener st.2 = false ->
  calls (spawn_step r e st).2 = calls st.2 /\
  endListener (spawn_step r e st).2 = false.
Proof.
  intros Hend. destruct st as [a w]; simpl in Hend.
  destruct e; simpl; try done.
  - destruct (has_stdout (child r)); [|done]. unfold on_stdout.
    destruct (exceeds _ _); [|done]. simpl.
    destruct (controller_abort_stream (maxBuffer_reason (maxBuffer r)) w) as [-> ->].
    done.
  - destruct (has_stderr (child r)); [|done]. unfold on_stderr.
    destruct (exceeds _ _); [|done]. simpl.
    destruct (controller_abort_stream (maxBuffer_reason (maxBuffer r)) w) as [-> ->].
    done.
  - by rewrite Hend.
  - destruct (errorListener w); [|done]. simpl.
    match goal with
    | |- context [controller_abort ?x ?y] =>
        destruct (controller_abort_stream x y) as [-> ->]
    end. done.
  - unfold on_timer. destruct (timerArmed w); [|done].
    match goal with
    | |- context [controller_abort ?x ?y] =>
        destruct (controller_abort_stream x y) as [-> ->]
    end. done.
  - unfold on_caller_abort. destruct (anySignal w); [|done].
    destruct (caller_abort_stream reason w) as [-> ->]. done.
Qed.

Lemma exec_step_stream r e w :
  calls (exec_step r e w) = calls w.
Proof.
  destruct e; simpl; try done.
  - unfold on_timer. destruct (timerArmed w); [|done].
    match goal with
    | |- context [controller_abort ?x ?y] =>
        destruct (controller_abort_stream x y) as [-> _]
    end. done.
  - unfold on_caller_abort. destruct (anySignal w); [|done].
    by destruct (caller_abort_stream reason w) as [-> _].
Qed.

Lemma calls_cleanup r w : calls (cleanup r w) = calls w.
Proof. unfold cleanup. by destruct (timeoutId r). Qed.

Lemma spawn_await_stream r events st :
  endListener st.2 = false -> calls (spawn_await r events st).2 = calls st.2.
Proof.
  revert st. induction events as [|e events IH]; intros st Hend; [done|].
  destruct (spawn_step_stream r e st Hend) as [Hc He].
  assert (Hnext : calls (spawn_await r events (spawn_step r e st)).2 = calls st.2).
  { by rewrite IH, Hc. }
  destruct e; try done; simpl.
  - destruct (signal st.2); simpl; by rewrite calls_cleanup.
  - by rewrite calls_cleanup.
Qed.

Lemma exec_await_stream r events w : calls (exec_await r events w).2 = calls w.
Proof.
  revert w. induction events as [|e events IH]; intros w; [done|].
  assert (Hnext : calls (exec_await r events (exec_step r e w)).2 = calls w).
  { by rewrite IH, exec_step_stream. }
  destruct e; try done; simpl.
  - destruct (signal w); simpl; by rewrite calls_cleanup.
  - by rewrite calls_cleanup.
Qed.

Lemma await_stream a events w :
  endListener w = false -> calls (await a events w).2 = calls w.
Proof.
  intros Hend. destruct a as [r|r]; simpl.
  - by apply (spawn_await_stream r events (no_output, w)).
  - apply exec_await_stream.
Qed.

Lemma spawn_launch_no_input H command args l w o :
  heap w !! l = Some o ->
  get o "input" = VUndefined ->
  calls (spawn_launch H command args l w).2 = calls w /\
  endListener (spawn_launch H command args l w).2 = endListener w.
Proof.
  intros Hl Hin.
  unfold spawn_launch, setupAbortHandling, spread, alloc, delete_prop,
    childProcess_spawn, bind, gets, modify, ret, deref.
  destruct w as [h orc cl cs ctl any ta el erl al k ln]. simpl in *.
  rewrite Hl. simpl.
  rewrite !alter_insert_eq, lookup_insert_eq. simpl.
  destruct (host_spawn H command args _) as [[v|c] o']; simpl; [done|].
  rewrite !lookup_insert_ne
    by (apply (fresh_ref_ne l (set_heap h (new_world ∅ [] None)) o); done).
  rewrite Hl. simpl. rewrite Hin, handleInput_undefined. done.
Qed.

(** X13. A call of [spawn] without an input never touches the child's input
    stream: it neither writes to it nor closes it, whatever the host and the
    events do. *)
Theorem no_input_leaves_stdin H command args l events w o :
  heap w !! l = Some o ->
  endListener w = false ->
  get o "input" = VUndefined ->
  calls (spawn H command args l events w).2 = calls w.
Proof.
  intros Hl Hend Hin.
  destruct (spawn_launch_no_input H command args l w o Hl Hin) as [Hc He].
  unfold spawn. destruct (spawn_launch H command args l w) as [[v|r] w1]; [done|].
  simpl in *. rewrite <- Hc.
  apply (await_stream (AwaitClose r)). by rewrite He.
Qed.

(** ** Cancellation by the caller *)

Lemma fired_result_any a pre e0 post e rest w reason :
  Forall (fun e => settles a e = false) pre ->
  settles a e0 = false ->
  Forall (fun e => settles a e = false) post ->
  settles a e = true ->
  signal (after a (pre ++ [e0]) w) = Some reason ->
  (await a (pre ++ e0 :: post ++ e :: rest) w).1 =
    Resolved
      {| data := None; dataAsBuffer := None;
         error := Some {| name := "ExecUtilsError";
                          message := match reason with
                                     | VErr m => m
                                     | _ => "Operation aborted"
                                     end;
                          code := Some (-1) |};
         exitCode := Some (-1); process := child (running a) |}.
Proof.
  intros Hpre He0 Hpost He Hfired.
  apply (after_app_fired _ _ _ post) in Hfired.
  replace (pre ++ e0 :: post ++ e :: rest) with ((pre ++ e0 :: post) ++ e :: rest)
    by (by rewrite <- app_assoc).
  assert (Hall : Forall (fun e => settles a e = false) (pre ++ e0 :: post)).
  { apply Forall_app. split; [done|]. by constructor. }
  assert (exists thrown, caught (signal (after a (pre ++ e0 :: post) w)) e
                         = Some thrown) as [thrown Hthrown].
  { rewrite Hfired. destruct a, e; simpl in *; try done; eauto. }
  rewrite (await_abnormal a _ e rest w thrown Hall He Hthrown), Hfired.
  rewrite createErrorResult_message. simpl. by destruct reason.
Qed.

Lemma after_snoc a pre e w :
  after a (pre ++ [e]) w =
    match a with
    | AwaitClose r => (spawn_step r e (spawn_steps r pre (no_output, w))).2
    | AwaitExec r => exec_step r e (exec_steps r pre w)
    end.
Proof.
  destruct a as [r|r]; simpl; unfold spawn_steps, exec_steps; by rewrite foldl_app.
Qed.

(** X14. Cancellation through the caller's signal. When [options.signal] is
    given and the caller aborts it with [reason] before any other
    cancellation and before the child settles, the call, once the child
    settles, resolves to the failure variant with [code] -1 and the message
    of the reason: the reason's own when it is an [Error], the platform's
    "This operation was aborted" when no reason was given, and "Operation
    aborted" for any other value. *)
Theorem caller_abort_result H command args l w o reason pre post e rest :
  heap w !! l = Some o ->
  abortListener w = false ->
  truthy (get o "signal") = true ->
  let failure proc :=
    Resolved
      {| data := None; dataAsBuffer := None;
         error := Some {| name := "ExecUtilsError";
                          message := match reason with
                                     | VErr m => m
                                     | VUndefined => "This operation was aborted"
                                     | _ => "Operation aborted"
                                     end;
                          code := Some (-1) |};
         exitCode := Some (-1); process := proc |} in
  (forall r w1,
     spawn_launch H command args l w = (inr r, w1) ->
     Forall (fun e => settles_spawn e = false) pre ->
     signal (after (AwaitClose r) pre w1) = None ->
     Forall (fun e => settles_spawn e = false) post ->
     settles_spawn e = true ->
     (spawn H command args l (pre ++ CallerAbort reason :: post ++ e :: rest) w).1 =
       failure (child r)) /\
  (forall a w1,
     exec_launch H command l w = (inr a, w1) ->
     Forall (fun e => settles a e = false) pre ->
     signal (after a pre w1) = None ->
     Forall (fun e => settles a e = false) post ->
     settles a e = true ->
     (exec H command l (pre ++ CallerAbort reason :: post ++ e :: rest) w).1 =
       failure (child (running a))).
Proof.
  intros Hl Hal Hsig failure.
  assert (Hgeneric : forall a w1,
            anySignal w1 <> None ->
            (anySignal w1 = Some None -> callerSignal w1 = None) ->
            Forall (fun e => settles a e = false) pre ->
            signal (after a pre w1) = None ->
            Forall (fun e => settles a e = false) post ->
            settles a e = true ->
            (await a (pre ++ CallerAbort reason :: post ++ e :: rest) w1).1 =
              failure (child (running a))).
  { intros a w1 Hany Hsync Hpre Hs Hpost He.
    rewrite (fired_result_any a pre (CallerAbort reason) post e rest w1
               (abort_reason reason)); try done.
    - unfold failure. by destruct reason.
    - by destruct a.
    - destruct (after_any_follows a pre w1 (conj Hany Hsync)) as [Hany' Hsync'].
      rewrite after_snoc.
      assert (signal (on_caller_abort reason (after a pre w1))
              = Some (abort_reason reason)) as Hfire.
      { unfold on_caller_abort.
        destruct (anySignal (after a pre w1)) as [s|] eqn:Ha; [|done].
        assert (s = None) as -> by (unfold signal in Hs; by rewrite Ha in Hs).
        rewrite signal_caller_abort, Ha, Hsync' by done. done. }
      by destruct a. }
  split.
  - intros r w1 Hlaunch Hpre Hs Hpost He.
    destruct (spawn_launch_control _ _ _ _ _ _ _ _ Hl Hal Hlaunch)
      as (_ & _ & _ & _ & Hany & Hsync & _).
    unfold spawn. rewrite Hlaunch. apply (Hgeneric (AwaitClose r)); try done.
    rewrite Hany. by rewrite Hsig.
  - intros a w1 Hlaunch Hpre Hs Hpost He.
    destruct (exec_launch_control _ _ _ _ _ _ _ Hl Hal Hlaunch)
      as (_ & _ & _ & _ & Hany & Hsync & _).
    unfold exec. rewrite Hlaunch. apply Hgeneric; try done.
    rewrite Hany. by rewrite Hsig.
Qed.

(** ** Overflow on the error stream *)

Lemma holds_no_output c : holds c [] no_output.
Proof.
  unfold holds, stdout_bytes, stderr_bytes.
  by destruct (has_stdout c), (has_stderr c).
Qed.

(** X15. Overflow through the error stream. When a [Buffer] chunk of the
    error stream takes the bytes held from both streams together above the
    configured ceiling while no cancellation has fired, the signal takes the
    reason "MaxBuffer size exceeded (<ceiling> bytes)", and the call, once
    the child settles, resolves to the failure variant with [code] -1 and
    that message. *)
Theorem stderr_overflow_result H command args l w o r w1 pre chunk post e rest :
  heap w !! l = Some o ->
  spawn_launch H command args l w = (inr r, w1) ->
  has_stderr (child r) = true ->
  Forall (fun e => settles_spawn e = false) pre ->
  buffer_chunks pre ->
  signal (after (AwaitClose r) pre w1) = None ->
  exceeds (Z.of_nat (length (stdout_bytes (child r) pre)) +
           (Z.of_nat (length (stderr_bytes (child r) pre)) + Z.of_nat (length chunk)))
    (as_number (js_or (get o "maxBuffer") (VNum 83886080))) = true ->
  Forall (fun e => settles_spawn e = false) post ->
  settles_spawn e = true ->
  (spawn H command args l
     (pre ++ StderrData (ChunkBuffer chunk) :: post ++ e :: rest) w).1 =
    Resolved
      {| data := None; dataAsBuffer := None;
         error := Some {| name := "ExecUtilsError";
                          message := "MaxBuffer size exceeded (" +:+
                                     Number_toString
                                       (as_number (js_or (get o "maxBuffer")
                                                     (VNum 83886080)))
                                     +:+ " bytes)";
                          code := Some (-1) |};
         exitCode := Some (-1); process := child r |}.
Proof.
  intros Hl Hlaunch Herr Hpre Hbuf Hs Hover Hpost He.
  pose proof (spawn_launch_spec H command args l w o Hl) as Hspec.
  unfold wp in Hspec. rewrite Hlaunch in Hspec. simpl in Hspec.
  destruct Hspec as (_ & _ & Harmed & _ & _ & Hmax & _).
  unfold spawn. rewrite Hlaunch.
  change (VNum 83886080) with (VNum default_maxBuffer) in Hover |- *.
  rewrite <- Hmax in Hover |- *.
  apply (fired_result (AwaitClose r) pre (StderrData (ChunkBuffer chunk)) post e rest w1);
    try done.
  simpl in Hs |- *. rewrite spawn_steps_snoc.
  pose proof (spawn_steps_holds r pre [] (no_output, w1) Hbuf (holds_no_output _))
    as (_ & Hdl & _ & Hel).
  pose proof (armed_spawn_steps _ r pre (no_output, w1) Harmed) as Ha.
  destruct (spawn_steps r pre (no_output, w1)) as [acc w2].
  simpl in Hdl, Hel, Ha, Hs |- *.
  rewrite Herr. unfold on_stderr. simpl.
  rewrite Hdl, Hel, Hover.
  simpl. rewrite signal_controller_abort.
  destruct (Ha Hs) as [-> _]. by rewrite Hs.
Qed.

(** ** A stream as input *)

Lemma handleInput_piped c src w :
  has_stdin c = true ->
  Forall (fun answer => answer = None) (take 3 (oracle w)) ->
  handleInput c (VStream src) w =
    (inr tt,
     set_listeners true true (abortListener w) (kills w)
       (set_stream (drop 3 (oracle w))
          (calls w ++ [CallPipe src; CallOnceEnd src; CallOnceError src]) w)).
Proof.
  intros Hstdin Hok. unfold handleInput. rewrite Hstdin. simpl.
  destruct w as [h orc cl cs ctl any ta el erl al kl ln]; simpl in *.
  destruct orc as [|a0 [|a1 [|a2 orc]]]; simpl in Hok;
    repeat match goal with
           | H : Forall _ (_ :: _) |- _ =>
               apply Forall_cons in H; destruct H as [-> H]
           end;
    unfold try_catch, bind, host_call, modify; simpl; by rewrite <- ?app_assoc.
Qed.

(** The world once [spawn] has been launched with a stream as input, when
    piping and registering the two listeners went through. *)
Lemma spawn_launch_stream H command args l w o src :
  heap w !! l = Some o ->
  get o "input" = VStream src ->
  Forall (fun answer => answer = None) (take 3 (oracle w)) ->
  wp (spawn_launch H command args l)
     (fun res w1 =>
        match res with
        | inl _ => True
        | inr r =>
            has_stdin (child r) = true ->
            endListener w1 = true /\
            errorListener w1 = true /\
            calls w1 = calls w ++ [CallPipe src; CallOnceEnd src; CallOnceError src]
        end) w.
Proof.
  intros Hl Hin Hok. pose proof (fun l0 => fresh_ref_ne l0 w) as Hne.
  unfold wp, spawn_launch, setupAbortHandling, spread, alloc, delete_prop,
    childProcess_spawn, bind, gets, modify, ret, deref.
  destruct w as [h orc cl cs ctl any ta el erl al k ln]. simpl in *.
  rewrite Hl. simpl.
  rewrite !alter_insert_eq, lookup_insert_eq. simpl.
  destruct (host_spawn H command args _) as [[v|c] o']; simpl; [done|].
  rewrite !lookup_insert_ne by eauto. rewrite Hl. simpl. rewrite Hin.
  destruct (has_stdin c) eqn:Hc.
  - rewrite handleInput_piped by done. by simpl.
  - destruct (handleInput _ _ _) as [[?|[]] ?]; simpl; [done|].
    intros ?. congruence.
Qed.

Lemma spawn_step_end r e st :
  calls (spawn_step r e st).2 =
    calls st.2 ++ (if is_input_end e && endListener st.2 then [CallEnd] else []) /\
  endListener (spawn_step r e st).2 = endListener st.2 && negb (is_input_end e).
Proof.
  destruct st as [a w].
  destruct e; simpl; rewrite ?app_nil_r, ?andb_true_r, ?andb_false_r; try done.
  - destruct (has_stdout (child r)); [|done]. unfold on_stdout.
    destruct (exceeds _ _); [|done]. simpl.
    by destruct (controller_abort_stream (maxBuffer_reason (maxBuffer r)) w) as [-> ->].
  - destruct (has_stderr (child r)); [|done]. unfold on_stderr.
    destruct (exceeds _ _); [|done]. simpl.
    by destruct (controller_abort_stream (maxBuffer_reason (maxBuffer r)) w) as [-> ->].
  - destruct (endListener w) eqn:Hend; simpl; by rewrite ?app_nil_r, ?Hend.
  - destruct (errorListener w); [|done]. simpl.
    match goal with
    | |- context [controller_abort ?x ?y] =>
        by destruct (controller_abort_stream x y) as [-> ->]
    end.
  - unfold on_timer. destruct (timerArmed w); [|done].
    match goal with
    | |- context [controller_abort ?x ?y] =>
        by destruct (controller_abort_stream x y) as [-> ->]
    end.
  - unfold on_caller_abort. destruct (anySignal w); [|done].
    by destruct (caller_abort_stream reason w) as [-> ->].
Qed.

Lemma spawn_steps_end r events st :
  endListener st.2 = true ->
  calls (spawn_steps r events st).2 =
    calls st.2 ++ (if existsb is_input_end events then [CallEnd] else []).
Proof.
  revert st. induction events as [|e events IH]; intros st Hend.
  { simpl. by rewrite app_nil_r. }
  change (spawn_steps r (e :: events) st)
    with (spawn_steps r events (spawn_step r e st)).
  destruct (spawn_step_end r e st) as [Hc He]. rewrite Hend in Hc, He.
  simpl. destruct (is_input_end e) eqn:Hie; simpl in *.
  - assert (Hrest : forall events' st',
              endListener st'.2 = false ->
              calls (spawn_steps r events' st').2 = calls st'.2).
    { induction events' as [|e' events' IH']; intros st' Hoff; [done|].
      change (spawn_steps r (e' :: events') st')
        with (spawn_steps r events' (spawn_step r e' st')).
      destruct (spawn_step_stream r e' st' Hoff) as [Hc' He'].
      by rewrite IH', Hc'. }
    by rewrite Hrest, Hc.
  - rewrite IH, Hc by done. by rewrite app_nil_r.
Qed.

(** X16. A stream given as input is piped into the child's input stream,
    and the feeder listens for its end and for its error.  The child's
    input stream is then closed once, at the first ['end'] of the source,
    and not before. *)
Theorem stream_end_closes_stdin H command args l w o src r w1 pre :
  heap w !! l = Some o ->
  get o "input" = VStream src ->
  Forall (fun answer => answer = None) (take 3 (oracle w)) ->
  spawn_launch H command args l w = (inr r, w1) ->
  has_stdin (child r) = true ->
  calls (after (AwaitClose r) pre w1) =
    calls w ++ [CallPipe src; CallOnceEnd src; CallOnceError src] ++
    (if existsb is_input_end pre then [CallEnd] else []).
Proof.
  intros Hl Hin Hok Hlaunch Hstdin.
  pose proof (spawn_launch_stream H command args l w o src Hl Hin Hok) as Hwp.
  unfold wp in Hwp. rewrite Hlaunch in Hwp. simpl in Hwp.
  destruct (Hwp Hstdin) as (Hend & _ & Hcalls).
  simpl. rewrite (spawn_steps_end r pre (no_output, w1)) by done.
  simpl. rewrite Hcalls. by rewrite <- app_assoc.
Qed.

Lemma spawn_step_errorListener r e st :
  is_input_error e = false ->
  errorListener (spawn_step r e st).2 = errorListener st.2.
Proof.
  intros He. destruct st as [a w].
  destruct e; simpl; try done.
  - destruct (has_stdout (child r)); [|done]. unfold on_stdout.
    destruct (exceeds _ _); [|done]. simpl. by controls.
  - destruct (has_stderr (child r)); [|done]. unfold on_stderr.
    destruct (exceeds _ _); [|done]. simpl. by controls.
  - by destruct (endListener w).
  - unfold on_timer. destruct (timerArmed w); [|done]. by controls.
  - unfold on_caller_abort. destruct (anySignal w); [|done]. by controls.
Qed.

Lemma spawn_steps_errorListener r events st :
  Forall (fun e => is_input_error e = false) events ->
  errorListener (spawn_steps r events st).2 = errorListener st.2.
Proof.
  intros Hev. revert st. induction Hev as [|e events He _ IH]; intros st; [done|].
  simpl. by rewrite IH, spawn_step_errorListener.
Qed.

(** X17. An error of the source stream. When a stream given as input emits
    its first ['error'], with an [Error], before any cancellation and before
    the child settles, the signal takes the reason "Input stream error:
    <message>", and the call, once the child settles, resolves to the
    failure variant with [code] -1 and that message. *)
Theorem input_stream_error_result H command args l w o src r w1 pre m post e rest :
  heap w !! l = Some o ->
  get o "input" = VStream src ->
  Forall (fun answer => answer = None) (take 3 (oracle w)) ->
  spawn_launch H command args l w = (inr r, w1) ->
  has_stdin (child r) = true ->
  Forall (fun e => settles_spawn e = false) pre ->
  Forall (fun e => is_input_error e = false) pre ->
  signal (after (AwaitClose r) pre w1) = None ->
  Forall (fun e => settles_spawn e = false) post ->
  settles_spawn e = true ->
  (spawn H command args l (pre ++ InputError (VErr m) :: post ++ e :: rest) w).1 =
    Resolved
      {| data := None; dataAsBuffer := None;
         error := Some {| name := "ExecUtilsError";
                          message := "Input stream error: " +:+ m;
                          code := Some (-1) |};
         exitCode := Some (-1); process := child r |}.
Proof.
  intros Hl Hin Hok Hlaunch Hstdin Hpre Hfirst Hs Hpost He.
  pose proof (spawn_launch_stream H command args l w o src Hl Hin Hok) as Hwp.
  pose proof (spawn_launch_spec H command args l w o Hl) as Hspec.
  unfold wp in Hwp, Hspec. rewrite Hlaunch in Hwp, Hspec. simpl in Hwp, Hspec.
  destruct (Hwp Hstdin) as (_ & Herr & _).
  destruct Hspec as (_ & _ & Harmed & _).
  unfold spawn. rewrite Hlaunch.
  apply (fired_result (AwaitClose r) pre (InputError (VErr m)) post e rest w1); try done.
  simpl in Hs |- *. rewrite spawn_steps_snoc.
  pose proof (spawn_steps_errorListener r pre (no_output, w1) Hfirst) as Hlisten.
  pose proof (armed_spawn_steps _ r pre (no_output, w1) Harmed) as Ha.
  destruct (spawn_steps r pre (no_output, w1)) as [acc w2].
  simpl in Hlisten, Ha, Hs |- *.
  rewrite Hlisten, Herr. simpl. rewrite signal_controller_abort.
  destruct (Ha Hs) as [Hc _].
  change (controllerSignal (set_listeners (endListener w2) false (abortListener w2)
                              (kills w2) w2)) with (controllerSignal w2).
  rewrite Hc.
  change (signal (set_listeners (endListener w2) false (abortListener w2)
                    (kills w2) w2)) with (signal w2).
  by rewrite Hs.
Qed.

End Properties.

(** * Worked calls *)

Local Open Scope list_scope.

#[local] Existing Instance ascii_codec.

Lemma clean_exit_result_witness :
  (spawn node_host "sh" ["-c"; "echo boom >&2; exit 7"] 0
     ([StderrData (ChunkBuffer (bytes "boom"))] ++ Close (Some 7) :: [])
     (call_with ∅ [])).1 =
    Resolved {| data := None;
                dataAsBuffer := None;
                error := Some {| name := "ExecUtilsError"; message := "boom";
                                 code := Some 7 |};
                exitCode := Some 7;
                process := a_child |}.
Proof.
  pose (w := call_with ∅ []).
  pose (r := {| options := 0; encoding := "utf8"; maxBuffer := default_maxBuffer;
                timeoutId := false; child := a_child |}).
  destruct (clean_exit_result node_host "sh" ["-c"; "echo boom >&2; exit 7"] 0 w ∅
              [StderrData (ChunkBuffer (bytes "boom"))] 7 []) as [Hspawn _].
  - reflexivity.
  - repeat constructor.
  - repeat constructor.
  - apply (Hspawn r (spawn_launch node_host "sh" ["-c"; "echo boom >&2; exit 7"] 0 w).2).
    + vm_compute. reflexivity.
    + vm_compute. reflexivity.
Defined.

(** ** The output ceiling on the output stream *)

(** C1, at a call with [maxBuffer = 10]. Eight bytes arrive on the error
    stream, then eight and two more on the output stream: the buffers hold
    eighteen bytes, the output-stream handler never compares the combined
    count with the ceiling, cancellation is never triggered, and the call
    resolves to the success variant. *)
Theorem stdout_check_ignores_stderr_count :
  let events := [StderrData (ChunkBuffer (bytes "12345678"));
                 StdoutData (bytes "abcdefgh");
                 StdoutData (bytes "ij")] in
  let run := spawn (codec := ascii_codec) node_host "sh" ["-c"; "produce"] 0
               (events ++ [Close (Some 0)])
               (call_with {[ "maxBuffer" := VNum 10 ]} []) in
  Z.of_nat (length (stdout_bytes a_child events ++ stderr_bytes a_child events)) = 18 /\
  signal run.2 = None /\
  run.1 = Resolved {| data := Some "abcdefghij";
                      dataAsBuffer := Some (bytes "abcdefghij");
                      error := None;
                      exitCode := Some 0;
                      process := a_child |}.
Proof. vm_compute. done. Qed.

(** ** Errors thrown by the launch *)

(** C2, at [spawn('', [])] and at [exec('ls', { maxBuffer: -1 })]. The host
    throws synchronously at the launch, outside the [try] block, and the
    promise returned by the call is rejected with the host's error. *)
Theorem launch_failure_rejects :
  (spawn (codec := ascii_codec) node_host EmptyString [] 0 [Close (Some 0)]
     (call_with ∅ [])).1 =
    Rejected (VErr "The argument 'file' cannot be empty. Received ''") /\
  (exec (codec := ascii_codec) node_host "ls" 0 [ExecResolved []]
     (call_with {[ "maxBuffer" := VNum (-1) ]} [])).1 =
    Rejected (VErr "The value of options.maxBuffer is out of range.").
Proof. vm_compute. done. Qed.

(** ** A child ended by a signal *)

(** C5, at a child that is ended by a signal the coordinator did not send:
    the host reports the exit code [null], the effective signal is not
    aborted, and the failure variant carries [null] as its error code. *)
Theorem signalled_child_has_no_code :
  (spawn (codec := ascii_codec) node_host "sh" ["-c"; "kill -9 $$"] 0 [Close None]
     (call_with ∅ [])).1 =
    Resolved {| data := None;
                dataAsBuffer := None;
                error := Some {| name := "ExecUtilsError"; message := EmptyString;
                                 code := None |};
                exitCode := None;
                process := a_child |}.
Proof. vm_compute. done. Qed.

(** ** A source stream whose [pipe] throws *)

Lemma input_feeder_failures_witness :
  let w := call_with {[ "input" := VStream 7 ]} [Some (VErr "pipe failed")] in
  (handleInput (codec := ascii_codec) a_child (VStream 7) w).1 = inr tt /\
  exists w1,
    (handleInput (codec := ascii_codec) a_child (VStream 7) w).2 =
      controller_abort (stdin_failure (VErr "pipe failed")) w1 /\
    calls w1 = [CallPipe 7; CallEnd] /\
    signal (controller_abort (stdin_failure (VErr "pipe failed")) w1) =
      Some (VErr "Failed to write to stdin: pipe failed").
Proof.
  intros w.
  destruct (input_feeder_failures (codec := ascii_codec) a_child (VStream 7) w)
    as (Hreturns & Hdelivery & _).
  split; [exact Hreturns|].
  destruct (Hdelivery eq_refl) as (_ & _ & _ & Hfail).
  destruct (Hfail 7%nat 0%nat (VErr "pipe failed") [])
    as (w1 & Hrun & Hcalls & Hs & Hc & Hsig);
    [reflexivity|simpl; lia|reflexivity|].
  exists w1. split; [exact Hrun|]. split; [exact Hcalls|].
  apply Hsig; reflexivity.
Defined.

(** ** The caller's signal reaches the host *)

(** Against C9 as stated: [signal] is a recognized option, and the object
    handed to the host still holds it. *)
Lemma signal_is_handed_to_host :
  launches (spawn (codec := ascii_codec) node_host "ls" [] 0 []
              (call_with {[ "signal" := VSignal 0; "timeout" := VNum 5;
                            "cwd" := VStr "/tmp" ]} [])).2 =
    [("ls", [], {[ "signal" := VSignal 0; "cwd" := VStr "/tmp" ]})].
Proof. vm_compute. done. Qed.

Lemma host_receives_options_witness :
  exists handed,
    launches (spawn (codec := ascii_codec) node_host "ls" ["-l"] 0 [Close (Some 0)]
                (call_with {[ "signal" := VSignal 0; "timeout" := VNum 5;
                              "cwd" := VStr "/tmp" ]} [])).2 =
      [] ++ [("ls", ["-l"], handed)] /\
    (forall k, k ∈ ["timeout"; "maxBuffer"; "encoding"; "input"] -> handed !! k = None) /\
    (forall k, k ∉ ["timeout"; "maxBuffer"; "encoding"; "input"] ->
               handed !! k =
                 ({[ "signal" := VSignal 0; "timeout" := VNum 5;
                     "cwd" := VStr "/tmp" ]} : gmap string Value) !! k) /\
    handed !! "signal" =
      ({[ "signal" := VSignal 0; "timeout" := VNum 5;
          "cwd" := VStr "/tmp" ]} : gmap string Value) !! "signal".
Proof.
  apply (host_receives_options (codec := ascii_codec) node_host "ls" ["-l"] 0
           [Close (Some 0)]
           (call_with {[ "signal" := VSignal 0; "timeout" := VNum 5;
                         "cwd" := VStr "/tmp" ]} [])).
  reflexivity.
Defined.

Lemma caller_options_untouched_witness :
  let o : gmap string Value :=
    {[ "timeout" := VNum 5; "maxBuffer" := VNum 1024; "encoding" := VStr "latin1";
       "signal" := VSignal 0; "input" := VStr "data" ]} in
  heap (spawn (codec := ascii_codec) node_host "cat" [] 0 [Close (Some 0)]
          (call_with o [])).2 !! 0%nat = Some o /\
  heap (exec (codec := ascii_codec) node_host "cat" 0 [Close (Some 0)]
          (call_with o [])).2 !! 0%nat = Some o.
Proof.
  intros o.
  apply (caller_options_untouched (codec := ascii_codec) node_host "cat" [] 0
           [Close (Some 0)] (call_with o []) o).
  reflexivity.
Defined.

(** ** A missing program, an abort, a timeout *)

Lemma abnormal_result_witness :
  (spawn node_host "this-command-does-not-exist" [] 0
     ([] ++ ChildError (VErr "spawn this-command-does-not-exist ENOENT") :: [])
     (call_with ∅ [])).1 =
    Resolved {| data := None; dataAsBuffer := None;
                error := Some {| name := "ExecUtilsError";
                                 message := "spawn this-command-does-not-exist ENOENT";
                                 code := Some (-1) |};
                exitCode := Some (-1); process := a_child |}.
Proof.
  pose (w := call_with ∅ []).
  pose (r := {| options := 0; encoding := "utf8"; maxBuffer := default_maxBuffer;
                timeoutId := false; child := a_child |}).
  apply (proj1 (abnormal_result node_host "this-command-does-not-exist" [] 0 w []
                  (ChildError (VErr "spawn this-command-does-not-exist ENOENT")) []
                  (VErr "spawn this-command-does-not-exist ENOENT"))
           r (spawn_launch node_host "this-command-does-not-exist" [] 0 w).2).
  - vm_compute. reflexivity.
  - constructor.
  - reflexivity.
  - reflexivity.
Defined.

Lemma cancellation_first_wins_witness :
  let w := (spawn node_host "sleep" ["10"] 0 [TimerFired]
              (call_with {[ "timeout" := VNum 5; "signal" := VSignal 0 ]} [])).2 in
  signal (caller_abort (VErr "stop") w) = Some (VErr "Command timed out after 5ms").
Proof.
  intros w.
  apply (cancellation_first_wins w (VErr "Command timed out after 5ms")).
  vm_compute. reflexivity.
Defined.

Lemma timeout_result_witness :
  let w := call_with {[ "timeout" := VNum 5000 ]} [] in
  kills (after (AwaitClose {| options := 0; encoding := "utf8";
                              maxBuffer := default_maxBuffer;
                              timeoutId := true; child := a_child |})
           ([] ++ TimerFired :: [])
           (spawn_launch node_host "sleep" ["10"] 0 w).2) = 1%nat /\
  (spawn node_host "sleep" ["10"] 0
     ([] ++ TimerFired :: [] ++ Close None :: []) w).1 =
    Resolved {| data := None; dataAsBuffer := None;
                error := Some {| name := "ExecUtilsError";
                                 message := "Command timed out after 5000ms";
                                 code := Some (-1) |};
                exitCode := Some (-1); process := a_child |}.
Proof.
  intros w.
  pose (r := {| options := 0; encoding := "utf8"; maxBuffer := default_maxBuffer;
                timeoutId := true; child := a_child |}).
  destruct (timeout_result node_host "sleep" ["10"] 0 w {[ "timeout" := VNum 5000 ]}
              5000 [] [] (Close None) []) as [Hspawn _].
  - reflexivity.
  - reflexivity.
  - reflexivity.
  - destruct (Hspawn r (spawn_launch node_host "sleep" ["10"] 0 w).2)
      as (_ & _ & _ & Hkills & _ & Hres).
    + vm_compute. reflexivity.
    + constructor.
    + vm_compute. reflexivity.
    + constructor.
    + reflexivity.
    + split; [exact Hkills|exact Hres].
Defined.

(** A timeout that is not an integer, [timeout: 1.5]. *)
Lemma fractional_timeout_message :
  (spawn node_host "sleep" ["10"] 0 [TimerFired; Close None]
     (call_with {[ "timeout" := VNum (Fraction 3 1) ]} [])).1 =
    Resolved {| data := None; dataAsBuffer := None;
                error := Some {| name := "ExecUtilsError";
                                 message := "Command timed out after 1.5ms";
                                 code := Some (-1) |};
                exitCode := Some (-1); process := a_child |}.
Proof. vm_compute. done. Qed.

(** ** Further worked calls *)

Lemma exec_clean_success_witness :
  (exec node_host "echo hi" 0 ([] ++ ExecResolved (bytes "hi") :: [])
     (call_with ∅ [])).1 =
    Resolved {| data := Some "hi"; dataAsBuffer := Some (bytes "hi");
                error := None; exitCode := Some 0; process := a_child |}.
Proof.
  pose (w := call_with ∅ []).
  pose (r := {| options := 0; encoding := "utf8"; maxBuffer := default_maxBuffer;
                timeoutId := false; child := a_child |}).
  refine (exec_clean_success node_host "echo hi" 0 w ∅ (AwaitExec r)
            (exec_launch node_host "echo hi" 0 w).2 [] (bytes "hi") [] _ _ _ _ _).
  - reflexivity.
  - reflexivity.
  - vm_compute. reflexivity.
  - constructor.
  - vm_compute. reflexivity.
Defined.

Lemma exec_with_input_runs_sh_witness :
  exists handed,
    launches (exec node_host "cat" 0 [Close (Some 0)]
                (call_with {[ "input" := VStr "data"; "cwd" := VStr "/tmp" ]} [])).2 =
      [] ++ [("sh", ["-c"; "cat"], handed)] /\
    handed !! "shell" = Some (VBool true) /\
    (forall k, k ∈ ["timeout"; "maxBuffer"; "encoding"; "input"] -> handed !! k = None) /\
    (forall k, k ∉ ["timeout"; "maxBuffer"; "encoding"; "input"; "shell"] ->
               handed !! k =
                 ({[ "input" := VStr "data"; "cwd" := VStr "/tmp" ]}
                    : gmap string Value) !! k).
Proof.
  apply (exec_with_input_runs_sh node_host "cat" 0 [Close (Some 0)]
           (call_with {[ "input" := VStr "data"; "cwd" := VStr "/tmp" ]} [])).
  - reflexivity.
  - vm_compute. discriminate.
Defined.

Lemma exec_without_input_options_witness :
  exists handed,
    launches (exec node_host "ls" 0 [ExecResolved []]
                (call_with {[ "timeout" := VNum 5; "cwd" := VStr "/tmp" ]} [])).2 =
      [] ++ [("ls", [], handed)] /\
    handed !! "encoding" = Some (VStr "buffer") /\
    handed !! "maxBuffer" =
      Some (js_or (get ({[ "timeout" := VNum 5; "cwd" := VStr "/tmp" ]}
                          : gmap string Value) "maxBuffer") (VNum 83886080)) /\
    handed !! "timeout" = None /\
    handed !! "signal" = None /\
    (forall k, k ∉ ["encoding"; "maxBuffer"; "timeout"; "signal"] ->
               handed !! k =
                 ({[ "timeout" := VNum 5; "cwd" := VStr "/tmp" ]}
                    : gmap string Value) !! k).
Proof.
  apply (exec_without_input_options node_host "ls" 0 [ExecResolved []]
           (call_with {[ "timeout" := VNum 5; "cwd" := VStr "/tmp" ]} [])).
  - reflexivity.
  - reflexivity.
Defined.


Lemma stdout_within_ceiling_witness :
  exceeds (Z.of_nat (length (stdout_bytes a_child [StdoutData (bytes "12345678")])))
    (as_number (js_or (get ({[ "maxBuffer" := VNum 10 ]} : gmap string Value) "maxBuffer")
                  (VNum 83886080))) = false.
Proof.
  pose (w := call_with {[ "maxBuffer" := VNum 10 ]} []).
  pose (r := {| options := 0; encoding := "utf8"; maxBuffer := 10;
                timeoutId := false; child := a_child |}).
  refine (stdout_within_ceiling node_host "yes" [] 0 w {[ "maxBuffer" := VNum 10 ]} r
            (spawn_launch node_host "yes" [] 0 w).2 [StdoutData (bytes "12345678")]
            _ _ _ _).
  - reflexivity.
  - vm_compute. reflexivity.
  - vm_compute. reflexivity.
  - vm_compute. reflexivity.
Defined.

Lemma terminates_child_once_witness :
  kills (spawn node_host "sleep" ["10"] 0 ([TimerFired] ++ Close None :: [])
           (call_with {[ "timeout" := VNum 5 ]} [])).2 = 1%nat.
Proof.
  pose (w := call_with {[ "timeout" := VNum 5 ]} []).
  pose (r := {| options := 0; encoding := "utf8"; maxBuffer := default_maxBuffer;
                timeoutId := true; child := a_child |}).
  destruct (terminates_child_once node_host "sleep" ["10"] 0 w {[ "timeout" := VNum 5 ]}
              [TimerFired] (Close None) []) as [Hspawn _].
  - reflexivity.
  - reflexivity.
  - refine (Hspawn r (spawn_launch node_host "sleep" ["10"] 0 w).2 _ _ _ _).
    + vm_compute. reflexivity.
    + vm_compute. reflexivity.
    + repeat constructor.
    + reflexivity.
Defined.

Lemma aborted_before_call_witness :
  let w := new_world {[ 0%nat := {[ "signal" := VSignal 0 ]} ]} [] (Some (VErr "stop")) in
  (spawn node_host "sleep" ["10"] 0 ([] ++ Close (Some 0) :: []) w).1 =
    Resolved {| data := None; dataAsBuffer := None;
                error := Some {| name := "ExecUtilsError"; message := "stop";
                                 code := Some (-1) |};
                exitCode := Some (-1); process := a_child |} /\
  kills (spawn node_host "sleep" ["10"] 0 ([] ++ Close (Some 0) :: []) w).2 = 0%nat.
Proof.
  intros w.
  pose (r := {| options := 0; encoding := "utf8"; maxBuffer := default_maxBuffer;
                timeoutId := false; child := a_child |}).
  destruct (aborted_before_call node_host "sleep" ["10"] 0 w {[ "signal" := VSignal 0 ]}
              (VErr "stop") [] (Close (Some 0)) []) as [Hspawn _].
  - reflexivity.
  - reflexivity.
  - reflexivity.
  - reflexivity.
  - refine (Hspawn r (spawn_launch node_host "sleep" ["10"] 0 w).2 _ _ _).
    + vm_compute. reflexivity.
    + constructor.
    + reflexivity.
Defined.

Lemma timer_released_on_settle_witness :
  match spawn node_host "ls" [] 0 [Close (Some 0); ExecResolved []]
          (call_with {[ "timeout" := VNum 5 ]} []) with
  | (Resolved _, w') => timerArmed w' = false
  | _ => True
  end /\
  match exec node_host "ls" 0 [Close (Some 0); ExecResolved []]
          (call_with {[ "timeout" := VNum 5 ]} []) with
  | (Resolved _, w') => timerArmed w' = false
  | _ => True
  end.
Proof.
  apply (timer_released_on_settle node_host "ls" [] 0 [Close (Some 0); ExecResolved []]
           (call_with {[ "timeout" := VNum 5 ]} []) {[ "timeout" := VNum 5 ]}).
  - reflexivity.
  - reflexivity.
Defined.

Lemma timer_pending_after_rejection_witness :
  match spawn node_host EmptyString [] 0 []
          (call_with {[ "timeout" := VNum 5 ]} []) with
  | (Rejected _, w') =>
      timerArmed w' =
        truthy (get ({[ "timeout" := VNum 5 ]} : gmap string Value) "timeout")
  | _ => True
  end /\
  match exec node_host EmptyString 0 []
          (call_with {[ "timeout" := VNum 5 ]} []) with
  | (Rejected _, w') =>
      timerArmed w' =
        truthy (get ({[ "timeout" := VNum 5 ]} : gmap string Value) "timeout")
  | _ => True
  end.
Proof.
  apply (timer_pending_after_rejection node_host EmptyString [] 0 []
           (call_with {[ "timeout" := VNum 5 ]} []) {[ "timeout" := VNum 5 ]}).
  - reflexivity.
  - reflexivity.
Defined.

Lemma no_input_leaves_stdin_witness :
  calls (spawn node_host "ls" [] 0 [InputEnd; Close (Some 0)] (call_with ∅ [])).2 = [].
Proof.
  refine (no_input_leaves_stdin node_host "ls" [] 0 [InputEnd; Close (Some 0)]
            (call_with ∅ []) ∅ _ _ _).
  - reflexivity.
  - reflexivity.
  - reflexivity.
Defined.

Lemma caller_abort_result_witness :
  (spawn node_host "sleep" ["10"] 0
     ([] ++ CallerAbort (VErr "stop") :: [] ++ Close None :: [])
     (call_with {[ "signal" := VSignal 0 ]} [])).1 =
    Resolved {| data := None; dataAsBuffer := None;
                error := Some {| name := "ExecUtilsError"; message := "stop";
                                 code := Some (-1) |};
                exitCode := Some (-1); process := a_child |}.
Proof.
  pose (w := call_with {[ "signal" := VSignal 0 ]} []).
  pose (r := {| options := 0; encoding := "utf8"; maxBuffer := default_maxBuffer;
                timeoutId := false; child := a_child |}).
  destruct (caller_abort_result node_host "sleep" ["10"] 0 w {[ "signal" := VSignal 0 ]}
              (VErr "stop") [] [] (Close None) []) as [Hspawn _].
  - reflexivity.
  - reflexivity.
  - reflexivity.
  - refine (Hspawn r (spawn_launch node_host "sleep" ["10"] 0 w).2 _ _ _ _ _).
    + vm_compute. reflexivity.
    + constructor.
    + vm_compute. reflexivity.
    + constructor.
    + reflexivity.
Defined.

Lemma stderr_overflow_result_witness :
  (spawn node_host "yes" [] 0
     ([StdoutData (bytes "12345678")] ++
      StderrData (ChunkBuffer (bytes "abc")) :: [] ++ Close None :: [])
     (call_with {[ "maxBuffer" := VNum 10 ]} [])).1 =
    Resolved {| data := None; dataAsBuffer := None;
                error := Some {| name := "ExecUtilsError";
                                 message := "MaxBuffer size exceeded (10 bytes)";
                                 code := Some (-1) |};
                exitCode := Some (-1); process := a_child |}.
Proof.
  pose (w := call_with {[ "maxBuffer" := VNum 10 ]} []).
  pose (r := {| options := 0; encoding := "utf8"; maxBuffer := 10;
                timeoutId := false; child := a_child |}).
  refine (stderr_overflow_result node_host "yes" [] 0 w {[ "maxBuffer" := VNum 10 ]} r
            (spawn_launch node_host "yes" [] 0 w).2
            [StdoutData (bytes "12345678")] (bytes "abc") [] (Close None) []
            _ _ _ _ _ _ _ _ _).
  - reflexivity.
  - vm_compute. reflexivity.
  - reflexivity.
  - repeat constructor.
  - repeat constructor.
  - vm_compute. reflexivity.
  - vm_compute. reflexivity.
  - constructor.
  - reflexivity.
Defined.

Lemma stream_end_closes_stdin_witness :
  let w := call_with {[ "input" := VStream 7 ]} [] in
  calls (after (AwaitClose {| options := 0; encoding := "utf8";
                              maxBuffer := default_maxBuffer;
                              timeoutId := false; child := a_child |})
           [StdoutData (bytes "out"); InputEnd]
           (spawn_launch node_host "cat" [] 0 w).2) =
    [] ++ [CallPipe 7; CallOnceEnd 7; CallOnceError 7] ++ [CallEnd].
Proof.
  intros w.
  refine (stream_end_closes_stdin node_host "cat" [] 0 w {[ "input" := VStream 7 ]} 7
            _ (spawn_launch node_host "cat" [] 0 w).2
            [StdoutData (bytes "out"); InputEnd] _ _ _ _ _).
  - reflexivity.
  - reflexivity.
  - constructor.
  - vm_compute. reflexivity.
  - reflexivity.
Defined.

Lemma input_stream_error_result_witness :
  (spawn node_host "cat" [] 0
     ([] ++ InputError (VErr "read failed") :: [] ++ Close None :: [])
     (call_with {[ "input" := VStream 7 ]} [])).1 =
    Resolved {| data := None; dataAsBuffer := None;
                error := Some {| name := "ExecUtilsError";
                                 message := "Input stream error: read failed";
                                 code := Some (-1) |};
                exitCode := Some (-1); process := a_child |}.
Proof.
  pose (w := call_with {[ "input" := VStream 7 ]} []).
  pose (r := {| options := 0; encoding := "utf8"; maxBuffer := default_maxBuffer;
                timeoutId := false; child := a_child |}).
  refine (input_stream_error_result node_host "cat" [] 0 w {[ "input" := VStream 7 ]} 7 r
            (spawn_launch node_host "cat" [] 0 w).2 [] "read failed" [] (Close None) []
            _ _ _ _ _ _ _ _ _ _).
  - reflexivity.
  - reflexivity.
  - constructor.
  - vm_compute. reflexivity.
  - reflexivity.
  - constructor.
  - constructor.
  - vm_compute. reflexivity.
  - constructor.
  - reflexivity.
Defined.
